(** * balloon-lang: the static type checker and the tree-walking evaluator

    A shallow embedding of [src/typechecker.rs] (over the tree of
    [src/ast.rs]) and of [src/ast_walk_interpreter.rs] with
    [src/operations.rs] (over the tree that file pattern-matches on).

    The two passes are written against two different tree shapes in the
    sources (the checker's [Statement]/[Expr] of [ast.rs], the evaluator's
    [Stmt]/[Expr] with tuples, subscripts, function definitions and
    [Return]); each is modelled over its own tree. *)

From Stdlib Require Import ZArith List String Bool.
From Stdlib Require Floats.SpecFloat.
From stdpp Require Import base gmap strings list pretty.

Set Implicit Arguments.
Set Asymmetric Patterns.
Set Warnings "-register-all".
Set Warnings "-notation-for-abbreviation".

(** Source positions: [OffsetSpan] / [SpanPos] are pairs of [usize]. *)
Definition OffsetSpan : Type := (nat * nat)%type.

(** A binary64 payload for [Literal::Float(f64)]; no claim inspects it. *)
Abbreviation f64 := SpecFloat.spec_float.

(* ------------------------------------------------------------------ *)
(** ** The checker's tree: [src/ast.rs] *)

Module Ast.

Inductive BinaryOp :=
| Add | Sub | Mul | Div | FloorDiv
| LessThan | LessThanOrEqual | GreaterThan | GreaterThanOrEqual
| StrictEquals.

Inductive LogicalBinaryOp := LogicalAnd | LogicalOr.

Inductive UnaryOp := Minus.

Inductive LogicalUnaryOp := Not.

Inductive Literal :=
| Integer (i : Z)
| Float (f : f64)
| LBool (b : bool).

Inductive BindingType := Mutable.

(** [ast::Variable]; [Variable] is a Rocq keyword. *)
Inductive Variable_ := Identifier (bt : BindingType) (name : string).

Inductive LhsExpr := LhsIdentifier (id : string).

(** [typechecker.rs] reads [lhs_expr.pos] and [lhs_expr.data]: the
    left-hand side is a positioned node there. *)
Record LhsExprNode := mkLhsExprNode { lhs_pos : OffsetSpan; lhs_data : LhsExpr }.

Inductive Expr :=
| ELiteral (x : Literal)
| EIdentifier (id : string)
| BinaryExpression (e1 : ExprNode) (op : BinaryOp) (e2 : ExprNode)
| BinaryLogicalExpression (e1 : ExprNode) (op : LogicalBinaryOp) (e2 : ExprNode)
| UnaryExpression (op : UnaryOp) (e : ExprNode)
| UnaryLogicalExpression (op : LogicalUnaryOp) (e : ExprNode)
| FunctionCall (id : string) (args : list ExprNode)
with ExprNode := mkExprNode (pos : OffsetSpan) (data : Expr).

Inductive Statement :=
| Assignment (lhs : LhsExprNode) (e : ExprNode)
| VariableDeclaration (v : Variable_) (e : ExprNode)
| Expression (e : ExprNode)
| Block (ss : list StatementNode)
| IfThen (c : ExprNode) (t : StatementNode)
| IfThenElse (c : ExprNode) (t : StatementNode) (f : StatementNode)
| Loop (b : StatementNode)
| Break
| Empty
with StatementNode := mkStatementNode (spos : OffsetSpan) (sdata : Statement).

Definition epos (e : ExprNode) : OffsetSpan := let 'mkExprNode p _ := e in p.
Definition edata (e : ExprNode) : Expr := let 'mkExprNode _ d := e in d.

(** [if let Expr::FunctionCall(ref id, _) = e.data { .. }] *)
Definition fn_call_name (e : ExprNode) : option string :=
  match edata e with FunctionCall id _ => Some id | _ => None end.

(** [impl fmt::Display for BinaryOp] and the other operators. *)
Definition binary_op_to_string (op : BinaryOp) : string :=
  match op with
  | Add => "+"
  | Sub => "-"
  | Mul => "*"
  | Div => "/"
  | FloorDiv => "//"
  | LessThan => "<"
  | LessThanOrEqual => "<="
  | GreaterThan => ">"
  | GreaterThanOrEqual => ">="
  | StrictEquals => "=="
  end.

Definition logical_binary_op_to_string (op : LogicalBinaryOp) : string :=
  match op with LogicalAnd => "and" | LogicalOr => "or" end.

Definition unary_op_to_string (op : UnaryOp) : string :=
  match op with Minus => "-" end.

Definition logical_unary_op_to_string (op : LogicalUnaryOp) : string :=
  match op with Not => "not" end.

End Ast.

(* ------------------------------------------------------------------ *)
(** ** [src/typechecker.rs] *)

Module TypeChecker.
Import Ast.

(** [enum Type { Number, Bool, Any }] *)
Inductive Ty := TNumber | TBool | TAny.

#[global] Instance Ty_eq_dec : EqDecision Ty.
Proof. solve_decision. Defined.

(** [impl From<ast::Literal> for Type] *)
Definition type_of_literal (l : Literal) : Ty :=
  match l with Integer _ => TNumber | Float _ => TNumber | LBool _ => TBool end.

(** [impl fmt::Display for Type] *)
Definition type_to_string (t : Ty) : string :=
  match t with TNumber => "Number" | TBool => "Bool" | TAny => "Any" end.

(** The variants of [interpreter::InterpreterError] the checker builds. *)
Inductive InterpreterError :=
| NoneError (id : string)
| UndeclaredAssignment (id : string)
| ReferenceError (id : string)
| UnaryTypeError (op : UnaryOp) (t : Ty)
| BinaryTypeError (op : BinaryOp) (t1 t2 : Ty).

Inductive TypeCheckerIssue :=
| IInterpreterError (e : InterpreterError)
| MultipleTypesFromBranchWarning (name : string).

Definition TypeCheckerIssueWithPosition : Type := (TypeCheckerIssue * OffsetSpan)%type.

(** [TypeEnvironment { symbol_tables: Vec<HashMap<String, Type>> }].
    The vector is stored innermost-first: the head of the list is the
    last element of the Rust [Vec] (the scope [start_scope] pushed last),
    so the [.iter().rev()] walks of [set] and [get_type] are walks from
    the head. *)
Abbreviation TypeEnvironment := (list (gmap string Ty)).

Definition start_scope (env : TypeEnvironment) : TypeEnvironment := ∅ :: env.

(** [Vec::pop] on an empty vector does nothing. *)
Definition end_scope (env : TypeEnvironment) : TypeEnvironment := tail env.

(** [self.symbol_tables.last_mut().unwrap().insert(..)]: [None] is the
    panic of [unwrap] on an empty vector. *)
Definition declare (v : Variable_) (t : Ty) (env : TypeEnvironment)
  : option TypeEnvironment :=
  match v with
  | Identifier _ id =>
      match env with
      | [] => None
      | table :: rest => Some (<[id := t]> table :: rest)
      end
  end.

Fixpoint set (id : string) (t : Ty) (env : TypeEnvironment) : TypeEnvironment * bool :=
  match env with
  | [] => ([], false)
  | table :: rest =>
      match table !! id with
      | Some _ => (<[id := t]> table :: rest, true)
      | None => let '(rest', found) := set id t rest in (table :: rest', found)
      end
  end.

Fixpoint get_type (id : string) (env : TypeEnvironment) : option Ty :=
  match env with
  | [] => None
  | table :: rest =>
      match table !! id with
      | Some t => Some t
      | None => get_type id rest
      end
  end.

Definition get_all_keys (env : TypeEnvironment) : gset string :=
  foldr (fun table keys => dom table ∪ keys) ∅ env.

(** The builtin registry [builtins::get_builtin_from_name] lives outside
    [src/]; the checker only inspects whether a builtin is
    [Function::Returning] or [Function::Void]. *)
Inductive BuiltinKind := Returning | Void.

Section Checker.

Variable get_builtin_from_name : string -> option BuiltinKind.

Definition check_unary_minus_for_type (typ : Ty) : TypeCheckerIssue + Ty :=
  match typ with
  | TNumber => inr TNumber
  | TAny => inr TAny
  | _ => inl (IInterpreterError (UnaryTypeError Minus typ))
  end.

Definition check_binary_arithmetic_for_types (op : BinaryOp) (t1 t2 : Ty)
  : TypeCheckerIssue + Ty :=
  match t1, t2 with
  | TNumber, TNumber => inr TNumber
  | TAny, _ => inr TAny
  | _, TAny => inr TAny
  | _, _ => inl (IInterpreterError (BinaryTypeError op t1 t2))
  end.

Definition check_binary_comparison_for_types (op : BinaryOp) (t1 t2 : Ty)
  : TypeCheckerIssue + Ty :=
  match t1, t2 with
  | TNumber, TNumber => inr TBool
  | TAny, _ => inr TAny
  | _, TAny => inr TAny
  | _, _ => inl (IInterpreterError (BinaryTypeError op t1 t2))
  end.

(** [Result<Option<Type>, Vec<TypeCheckerIssueWithPosition>>]: [inl] is
    [Ok], [inr] is [Err]; the outer [option] is [None] when the Rust
    code panics (an [unwrap] on [None]). *)
Definition ExprResult : Type := (option Ty + list TypeCheckerIssueWithPosition)%type.

(** The repeated "typed operand or fallback [Any]" step of
    [check_statement] and of the binary case of [check_expr]. *)
Definition operand_type (e : ExprNode) (r : ExprResult)
  : Ty * list TypeCheckerIssueWithPosition :=
  match r with
  | inl None =>
      match fn_call_name e with
      | Some id => (TAny, [(IInterpreterError (NoneError id), epos e)])
      | None => (TAny, [])
      end
  | inl (Some t) => (t, [])
  | inr e => (TAny, e)
  end.

(** The "[Err] appended, [Ok(None)] of a call reported" step used for
    conditions, logical operands and call arguments. *)
Definition value_issues (e : ExprNode) (r : ExprResult) : list TypeCheckerIssueWithPosition :=
  match r with
  | inr es => es
  | inl None =>
      match fn_call_name e with
      | Some id => [(IInterpreterError (NoneError id), epos e)]
      | None => []
      end
  | inl (Some _) => []
  end.

Fixpoint check_expr (expr : ExprNode) (env : TypeEnvironment) {struct expr}
  : option ExprResult :=
  match expr with
  | mkExprNode pos data =>
  match data with
  | ELiteral x => Some (inl (Some (type_of_literal x)))
  | EIdentifier id =>
      match get_type id env with
      | Some t => Some (inl (Some t))
      | None => Some (inr [(IInterpreterError (ReferenceError id), pos)])
      end
  | UnaryExpression op e =>
      match check_expr e env with
      | None => None
      | Some (inl possible_type) =>
          match possible_type, fn_call_name e with
          | None, Some id => Some (inr [(IInterpreterError (NoneError id), epos e)])
          | None, None => None (* [possible_type.unwrap()] *)
          | Some t, _ =>
              match op with
              | Minus =>
                  match check_unary_minus_for_type t with
                  | inr t' => Some (inl (Some t'))
                  | inl err => Some (inr [(err, epos e)])
                  end
              end
          end
      | Some (inr es) => Some (inr es)
      end
  | UnaryLogicalExpression op e =>
      match check_expr e env with
      | None => None
      | Some (inl possible_type) =>
          match possible_type, fn_call_name e with
          | None, Some id => Some (inr [(IInterpreterError (NoneError id), epos e)])
          | _, _ => match op with Not => Some (inl (Some TBool)) end
          end
      | Some (inr es) => Some (inr es)
      end
  | BinaryExpression e1 op e2 =>
      match check_expr e1 env with
      | None => None
      | Some r1 =>
      match check_expr e2 env with
      | None => None
      | Some r2 =>
          let '(t1, is1) := operand_type e1 r1 in
          let '(t2, is2) := operand_type e2 r2 in
          let issues := is1 ++ is2 in
          let result :=
            match op with
            | Add | Sub | Mul | Div | FloorDiv => check_binary_arithmetic_for_types op t1 t2
            | LessThan | LessThanOrEqual | GreaterThan | GreaterThanOrEqual =>
                check_binary_comparison_for_types op t1 t2
            | StrictEquals => inr TBool
            end in
          match result with
          | inl err => Some (inr (issues ++ [(err, pos)]))
          | inr t => match issues with [] => Some (inl (Some t)) | _ => Some (inr issues) end
          end
      end
      end
  | BinaryLogicalExpression e1 op e2 =>
      match check_expr e1 env with
      | None => None
      | Some r1 =>
      match check_expr e2 env with
      | None => None
      | Some r2 =>
          let issues := value_issues e1 r1 ++ value_issues e2 r2 in
          match issues with [] => Some (inl (Some TBool)) | _ => Some (inr issues) end
      end
      end
  | FunctionCall id args =>
      match get_builtin_from_name id with
      | None => Some (inr [(IInterpreterError (ReferenceError id), pos)])
      | Some wrapped_func =>
          let fix check_args (args : list ExprNode) : option (list TypeCheckerIssueWithPosition) :=
            match args with
            | [] => Some []
            | arg :: rest =>
                match check_expr arg env with
                | None => None
                | Some r =>
                    match check_args rest with
                    | None => None
                    | Some is => Some (value_issues arg r ++ is)
                    end
                end
            end in
          match check_args args with
          | None => None
          | Some [] =>
              match wrapped_func with
              | Returning => Some (inl (Some TAny))
              | Void => Some (inl None)
              end
          | Some issues => Some (inr issues)
          end
      end
  end
  end.

(** [check_statements]: every statement is checked, issues are
    appended in order.  The statement checker is a parameter so that the
    [Block] case of [check_statement] can reuse the same loop. *)
Fixpoint check_statements_with
  (cs : StatementNode -> TypeEnvironment -> option (TypeEnvironment * list TypeCheckerIssueWithPosition))
  (ss : list StatementNode) (env : TypeEnvironment)
  : option (TypeEnvironment * list TypeCheckerIssueWithPosition) :=
  match ss with
  | [] => Some (env, [])
  | s :: rest =>
      match cs s env with
      | None => None
      | Some (env1, is1) =>
          match check_statements_with cs rest env1 with
          | None => None
          | Some (env2, is2) => Some (env2, is1 ++ is2)
          end
      end
  end.

(** The loop over [then_env.get_all_keys()] that ends the [IfThenElse]
    case: both [get_type(..).unwrap()] calls may panic ([None]). *)
Fixpoint merge_branches (pos : OffsetSpan) (names : list string)
  (then_env else_env env : TypeEnvironment)
  : option (TypeEnvironment * list TypeCheckerIssueWithPosition) :=
  match names with
  | [] => Some (env, [])
  | name :: rest =>
      match get_type name then_env with
      | None => None
      | Some then_type =>
          match get_type name else_env with
          | None => None
          | Some else_type =>
              if decide (else_type = then_type)
              then merge_branches pos rest then_env else_env (set name then_type env).1
              else
                match merge_branches pos rest then_env else_env (set name TAny env).1 with
                | None => None
                | Some (env', is) => Some (env', (MultipleTypesFromBranchWarning name, pos) :: is)
                end
          end
      end
  end.

(** The condition step shared by [IfThen] and [IfThenElse]: [inl] is the
    early [return Err(vec![NoneError])] when the condition is a void
    call, [inr] the issues accumulated so far. *)
Definition check_condition (if_expr : ExprNode) (r : ExprResult)
  : list TypeCheckerIssueWithPosition + list TypeCheckerIssueWithPosition :=
  match r with
  | inr es => inr es
  | inl None =>
      match fn_call_name if_expr with
      | Some id => inl [(IInterpreterError (NoneError id), epos if_expr)]
      | None => inr []
      end
  | inl (Some _) => inr []
  end.

(** [check_statement]: [None] is a panic, [Some (env', issues)] the
    mutated environment and the issues, [issues = []] meaning [Ok(())]. *)
Fixpoint check_statement (s : StatementNode) (env : TypeEnvironment) {struct s}
  : option (TypeEnvironment * list TypeCheckerIssueWithPosition) :=
  let 'mkStatementNode spos data := s in
  match data with
  | VariableDeclaration variable expr =>
      match check_expr expr env with
      | None => None
      | Some r =>
          let '(checked_type, issues) := operand_type expr r in
          match declare variable checked_type env with
          | None => None
          | Some env' => Some (env', issues)
          end
      end
  | Assignment lhs_expr expr =>
      match check_expr expr env with
      | None => None
      | Some r =>
          let '(checked_type, issues) := operand_type expr r in
          match lhs_data lhs_expr with
          | LhsIdentifier id =>
              let '(env', found) := set id checked_type env in
              if found then Some (env', issues)
              else Some (env', issues ++ [(IInterpreterError (UndeclaredAssignment id), lhs_pos lhs_expr)])
          end
      end
  | Block statements =>
      match check_statements_with check_statement statements (start_scope env) with
      | None => None
      | Some (env', issues) => Some (end_scope env', issues)
      end
  | Expression expr =>
      match check_expr expr env with
      | None => None
      | Some (inr es) => Some (env, es)
      | Some (inl _) => Some (env, [])
      end
  | IfThen if_expr then_block =>
      match check_expr if_expr env with
      | None => None
      | Some r =>
          match check_condition if_expr r with
          | inl early => Some (env, early)
          | inr issues =>
              match check_statement then_block env with
              | None => None
              | Some (env', is) => Some (env', issues ++ is)
              end
          end
      end
  | IfThenElse if_expr then_block else_block =>
      let then_env := env in
      let else_env := env in
      match check_expr if_expr env with
      | None => None
      | Some r =>
          match check_condition if_expr r with
          | inl early => Some (env, early)
          | inr issues =>
              match check_statement then_block then_env with
              | None => None
              | Some (then_env', is1) =>
                  match check_statement else_block else_env with
                  | None => None
                  | Some (else_env', is2) =>
                      match merge_branches spos (elements (get_all_keys then_env'))
                              then_env' else_env' env with
                      | None => None
                      | Some (env', is3) => Some (env', issues ++ is1 ++ is2 ++ is3)
                      end
                  end
              end
          end
      end
  | Loop block => check_statement block env
  | Break => Some (env, [])
  | Empty => Some (env, [])
  end.

Definition check_statements := check_statements_with check_statement.

(** [check_program]: one root scope; [Some []] is [Ok(())], [Some is]
    with [is <> []] is [Err(is)], [None] a panic. *)
Definition check_program (ast : list StatementNode)
  : option (list TypeCheckerIssueWithPosition) :=
  match check_statements ast (start_scope []) with
  | None => None
  | Some (env, issues) => let _ := end_scope env in Some issues
  end.

End Checker.

End TypeChecker.

(* ------------------------------------------------------------------ *)
(** ** The evaluator's tree, as [src/ast_walk_interpreter.rs] matches on it *)

Module RAst.

(** [BinOp], [UnOp], [LogicalUnOp], [LogicalBinOp]: the arms of the
    matches in [interpret_expr]. *)
Inductive BinOp := Add | Sub | Mul | Div | Lt | Lte | Gt | Gte | Eq.
Inductive UnOp := Neg.
Inductive LogicalUnOp := Not.
Inductive LogicalBinOp := And | Or.

(** [typechecker::ConstraintType]: the evaluator stores these in a
    function's call signature and never inspects them. *)
Inductive ConstraintType := CNumber | CBool | CString | CTuple | CFunction | CAny.

(** A literal node ([x.data] is read). *)
Record LiteralNode := mkLiteralNode { lit_pos : OffsetSpan; lit_data : Ast.Literal }.

Inductive Expr :=
| ELiteral (x : LiteralNode)
| EIdentifier (id : string)
| ETuple (elems : list ExprNode)
| Unary (op : UnOp) (e : ExprNode)
| UnaryLogical (op : LogicalUnOp) (e : ExprNode)
| Binary (e1 : ExprNode) (op : BinOp) (e2 : ExprNode)
| BinaryLogical (e1 : ExprNode) (op : LogicalBinOp) (e2 : ExprNode)
| MemberByIdx (object_expr : ExprNode) (index_expr : ExprNode)
  (** [FnDefExpr { maybe_id, params, body, maybe_ret_type }] *)
| FnDef (maybe_id : option string) (params : list (string * option ConstraintType))
        (body : StmtNode) (maybe_ret_type : option ConstraintType)
| FnCall (f : ExprNode) (args : list ExprNode)
with ExprNode := mkExprNode (pos : OffsetSpan) (data : Expr)
with Stmt :=
| VarDecl (v : Ast.Variable_) (e : ExprNode)
| Assign (lhs : Ast.LhsExprNode) (e : ExprNode)
| Block (ss : list StmtNode)
| SExpr (e : ExprNode)
  (** [IfThenStmt { cond, then_block, maybe_else_block }] *)
| IfThen (cond : ExprNode) (then_block : StmtNode) (maybe_else_block : option StmtNode)
| Loop (block : StmtNode)
| Return (e : option ExprNode)
| Break
| Empty
with StmtNode := mkStmtNode (spos : OffsetSpan) (sdata : Stmt).

Definition epos (e : ExprNode) : OffsetSpan := let 'mkExprNode p _ := e in p.
Definition edata (e : ExprNode) : Expr := let 'mkExprNode _ d := e in d.

End RAst.

(* ------------------------------------------------------------------ *)
(** ** Values, environments and [src/operations.rs] *)

Module Eval.
Import RAst.

(** Modelled from the spec: [value.rs] is not under [src/]; a [Number]
    is an Integer or a Float. *)
Inductive Number := NInteger (i : Z) | NFloat (f : f64).

(** Modelled from the spec: [function::CallSign] (arity, variadic flag,
    per-parameter constraint). *)
Record CallSign := mkCallSign {
  num_params : nat;
  variadic : bool;
  param_types : list (option ConstraintType)
}.

(** Modelled from the spec: [Value] and [Function].  Native callbacks are
    named by a key; what a key does is a field of [ValueImpl] below.  A
    user function's captured environment is the index of its scope in
    the environment arena ([Store]). *)
Inductive Value :=
| VNumber (n : Number)
| VBool (b : bool)
| VString (s : string)
| VTuple (vs : list Value)
| VFunction (f : Function)
with Function :=
| NativeVoid (cs : CallSign) (native_fn : string)
| NativeReturning (cs : CallSign) (native_fn : string)
| User (ret_type : option ConstraintType) (call_sign : CallSign)
       (param_names : list string) (body : StmtNode) (env : nat).

(** Modelled from the spec: the type tag of [Value::get_type]. *)
Inductive ValueType := TyNumber | TyBool | TyString | TyTuple | TyFunction.

Definition get_type (v : Value) : ValueType :=
  match v with
  | VNumber _ => TyNumber
  | VBool _ => TyBool
  | VString _ => TyString
  | VTuple _ => TyTuple
  | VFunction _ => TyFunction
  end.

Definition get_call_sign (f : Function) : CallSign :=
  match f with
  | NativeVoid cs _ => cs
  | NativeReturning cs _ => cs
  | User _ cs _ _ _ => cs
  end.

(** Modelled from the spec: [impl From<Literal> for Value]. *)
Definition value_from_literal (l : Ast.Literal) : Value :=
  match l with
  | Ast.Integer i => VNumber (NInteger i)
  | Ast.Float f => VNumber (NFloat f)
  | Ast.LBool b => VBool b
  end.

(** Modelled from the spec: [runtime::RuntimeError]. *)
Inductive RuntimeError :=
| ReferenceError (id : string)
| UndeclaredAssignment (id : string)
| NoneError (callee : option string)
| IndexOutOfBounds (i : Z)
| NonIntegralSubscript (t : ValueType)
| SubscriptOnNonSubscriptable (t : ValueType)
| CallToNonFunction (callee : option string) (t : ValueType)
| ArgumentLength (callee : option string)
| UnaryTypeError (op : UnOp) (t : ValueType)
| BinaryTypeError (op : BinOp) (t1 t2 : ValueType)
| InsideFunctionCall (inner : RuntimeError) (inner_pos : OffsetSpan).

Definition RuntimeErrorWithPosition : Type := (RuntimeError * OffsetSpan)%type.

(** [Result<T, E>] *)
Inductive result (A E : Type) := Ok (a : A) | Err (e : E).
Arguments Ok {A E} a.
Arguments Err {A E} e.

(** Modelled from the spec: [StmtResult]. *)
Inductive StmtResult :=
| SRNone
| SRValue (v : Value)
| SRBreak
| SRReturn (v : option Value).

(** Modelled from the spec: [environment::Environment] shared through
    [Rc<RefCell<..>>] is an arena of scopes addressed by index; a scope is
    a table and an optional parent link.  Several holders (closures) may
    keep the same index. *)
Record Scope := mkScope { vars : gmap string Value; parent : option nat }.

Abbreviation Store := (list Scope).

(** [Environment::new_root()]: the arena with one parentless scope, 0. *)
Definition new_root : Store * nat := ([mkScope ∅ None], 0).

(** [Environment::create_child(parent)]: a fresh scope at the end. *)
Definition create_child (st : Store) (p : nat) : Store * nat :=
  (st ++ [mkScope ∅ (Some p)], length st).

(** [declare(name, value)]: insert into the given scope only. *)
Definition env_declare (st : Store) (i : nat) (name : string) (v : Value) : Store :=
  match st !! i with
  | Some sc => <[i := mkScope (<[name := v]> (vars sc)) (parent sc)]> st
  | None => st
  end.

(** [get_value(name)]: innermost to outermost, first match wins. *)
Fixpoint env_get_fuel (n : nat) (st : Store) (i : nat) (name : string) : option Value :=
  match n with
  | 0 => None
  | S n =>
      match st !! i with
      | None => None
      | Some sc =>
          match vars sc !! name with
          | Some v => Some v
          | None =>
              match parent sc with
              | None => None
              | Some p => env_get_fuel n st p name
              end
          end
      end
  end.

Definition env_get (st : Store) (i : nat) (name : string) : option Value :=
  env_get_fuel (length st) st i name.

(** [set(name, value)]: mutate the nearest scope declaring [name];
    report whether one was found. *)
Fixpoint env_set_fuel (n : nat) (st : Store) (i : nat) (name : string) (v : Value)
  : Store * bool :=
  match n with
  | 0 => (st, false)
  | S n =>
      match st !! i with
      | None => (st, false)
      | Some sc =>
          match vars sc !! name with
          | Some _ => (<[i := mkScope (<[name := v]> (vars sc)) (parent sc)]> st, true)
          | None =>
              match parent sc with
              | None => (st, false)
              | Some p => env_set_fuel n st p name v
              end
          end
      end
  end.

Definition env_set (st : Store) (i : nat) (name : string) (v : Value) : Store * bool :=
  env_set_fuel (length st) st i name v.

(** Modelled from the spec: the parts of [value.rs] (number arithmetic
    and comparison, equality, [Display], truthiness) and of the builtin
    registry (native callbacks) that are not under [src/].  The
    development is stated for every such implementation. *)
Record ValueImpl := mkValueImpl {
  num_add : Number -> Number -> Number;
  num_sub : Number -> Number -> Number;
  num_mul : Number -> Number -> Number;
  num_div : Number -> Number -> Number;
  num_neg : Number -> Number;
  num_lt : Number -> Number -> bool;
  num_le : Number -> Number -> bool;
  num_gt : Number -> Number -> bool;
  num_ge : Number -> Number -> bool;
  value_eqb : Value -> Value -> bool;
  value_to_string : Value -> string;
  is_truthy : Value -> bool;
  native_void : string -> list Value -> result unit RuntimeError;
  native_returning : string -> list Value -> result Value RuntimeError
}.

Section Operations.

Variable H : ValueImpl.

Definition unary_minus (a : Value) : result Value RuntimeError :=
  match a with
  | VNumber x => Ok (VNumber (num_neg H x))
  | x => Err (UnaryTypeError Neg (get_type x))
  end.

Definition add (a b : Value) : result Value RuntimeError :=
  match a, b with
  | VNumber a, VNumber b => Ok (VNumber (num_add H a b))
  | VTuple a, VTuple b => Ok (VTuple (a ++ b))
  | VString sa, VString sb => Ok (VString (sa +:+ sb))
  | VString s, other => Ok (VString (s +:+ value_to_string H other))
  | other, VString s => Ok (VString (value_to_string H other +:+ s))
  | a, b => Err (BinaryTypeError Add (get_type a) (get_type b))
  end.

Definition number_op (op : BinOp) (f : Number -> Number -> Value) (a b : Value)
  : result Value RuntimeError :=
  match a, b with
  | VNumber a, VNumber b => Ok (f a b)
  | a, b => Err (BinaryTypeError op (get_type a) (get_type b))
  end.

Definition subtract := number_op Sub (fun a b => VNumber (num_sub H a b)).
Definition multiply := number_op Mul (fun a b => VNumber (num_mul H a b)).
Definition divide := number_op Div (fun a b => VNumber (num_div H a b)).
Definition less_than := number_op Lt (fun a b => VBool (num_lt H a b)).
Definition less_than_or_equal := number_op Lte (fun a b => VBool (num_le H a b)).
Definition greater_than := number_op Gt (fun a b => VBool (num_gt H a b)).
Definition greater_than_or_equal := number_op Gte (fun a b => VBool (num_ge H a b)).

End Operations.

(** The evaluator's outcomes: [ROk] with the arena after the step,
    [RErr] an error (fail-fast: the arena is dropped), [RPanic] a Rust
    panic ([unreachable!()]), [RFuel] the fuel of the model ran out
    (loops and recursion need not terminate). *)
Inductive Res (E A : Type) :=
| ROk (st : Store) (a : A)
| RErr (e : E)
| RPanic
| RFuel.
Arguments ROk {E A} st a.
Arguments RErr {E A} e.
Arguments RPanic {E A}.
Arguments RFuel {E A}.

(** The [?] operator, threading the arena. *)
Definition bind {E A B} (m : Res E A) (k : Store -> A -> Res E B) : Res E B :=
  match m with
  | ROk st a => k st a
  | RErr e => RErr e
  | RPanic => RPanic
  | RFuel => RFuel
  end.

Notation "'let?' st , x ':=' m 'in' k" := (bind m (fun st x => k))
  (at level 200, st name, x name, m at level 100, k at level 200).

Section Interpreter.

Variable H : ValueImpl.

Abbreviation R := (Res RuntimeErrorWithPosition).

Definition check_args_compat (arg_vals : list Value) (call_sign : CallSign) (expr : ExprNode)
  : result unit RuntimeErrorWithPosition :=
  if negb (variadic call_sign) && negb (Nat.eqb (num_params call_sign) (length arg_vals)) then
    match edata expr with
    | EIdentifier id => Err (ArgumentLength (Some id), epos expr)
    | _ => Err (ArgumentLength None, epos expr)
    end
  else Ok tt.

(** [for (param, arg) in param_names.iter().zip(arg_vals.iter())]:
    extra names or extra values are ignored by [zip]. *)
Fixpoint declare_params (st : Store) (i : nat) (names : list string) (args : list Value) : Store :=
  match names, args with
  | n :: ns, a :: as_ => declare_params (env_declare st i n a) i ns as_
  | _, _ => st
  end.

(** The common tail of [IfThen]: a [Break] or [Return] of the branch
    propagates, anything else gives [StmtResult::None]. *)
Definition branch_result (r : StmtResult) : StmtResult :=
  match r with
  | SRBreak => SRBreak
  | SRReturn _ => r
  | _ => SRNone
  end.

Fixpoint interpret_statement (fuel : nat) (st : Store) (s : StmtNode) (env : nat)
  {struct fuel} : R StmtResult :=
  match fuel with
  | 0 => RFuel
  | S f =>
  let 'mkStmtNode _ data := s in
  match data with
  | VarDecl variable expr =>
      let? st, val := interpret_expr_as_value f st expr env in
      match variable with
      | Ast.Identifier _ name => ROk (env_declare st env name val) SRNone
      end
  | Assign lhs_expr expr =>
      let? st, val := interpret_expr_as_value f st expr env in
      match Ast.lhs_data lhs_expr with
      | Ast.LhsIdentifier id =>
          let '(st', found) := env_set st env id val in
          if found then ROk st' SRNone
          else RErr (UndeclaredAssignment id, Ast.lhs_pos lhs_expr)
      end
  | Block statements =>
      let '(st, child_env) := create_child st env in
      interpret_block f st statements child_env SRNone
  | SExpr expr =>
      let? st, val := interpret_expr f st expr env in
      match val with
      | None => ROk st SRNone
      | Some x => ROk st (SRValue x)
      end
  | IfThen cond then_block maybe_else_block =>
      let? st, val := interpret_expr_as_value f st cond env in
      if is_truthy H val then
        let? st, result := interpret_statement f st then_block env in
        ROk st (branch_result result)
      else
        match maybe_else_block with
        | Some else_block =>
            let? st, result := interpret_statement f st else_block env in
            ROk st (branch_result result)
        | None => ROk st SRNone
        end
  | Loop block =>
      let '(st, child_env) := create_child st env in
      interpret_loop f st block child_env
  | Return possible_expr =>
      match possible_expr with
      | Some expr =>
          let? st, val := interpret_expr_as_value f st expr env in
          ROk st (SRReturn (Some val))
      | None => ROk st (SRReturn None)
      end
  | Break => ROk st SRBreak
  | Empty => ROk st SRNone
  end
  end

(** The [for] loop of [Stmt::Block], run in the child scope. *)
with interpret_block (fuel : nat) (st : Store) (statements : list StmtNode) (env : nat)
  (last_result : StmtResult) {struct fuel} : R StmtResult :=
  match fuel with
  | 0 => RFuel
  | S f =>
  match statements with
  | [] => ROk st last_result
  | statement :: rest =>
      let? st, last_result := interpret_statement f st statement env in
      match last_result with
      | SRBreak => ROk st SRBreak
      | SRReturn _ => ROk st last_result
      | _ => interpret_block f st rest env last_result
      end
  end
  end

(** The [loop] of [Stmt::Loop], every iteration in the same child scope. *)
with interpret_loop (fuel : nat) (st : Store) (block : StmtNode) (env : nat)
  {struct fuel} : R StmtResult :=
  match fuel with
  | 0 => RFuel
  | S f =>
      let? st, result := interpret_statement f st block env in
      match result with
      | SRBreak => ROk st SRNone
      | SRReturn _ => ROk st result
      | _ => interpret_loop f st block env
      end
  end

with interpret_expr_as_value (fuel : nat) (st : Store) (expr : ExprNode) (env : nat)
  {struct fuel} : R Value :=
  match fuel with
  | 0 => RFuel
  | S f =>
      let? st, possible_val := interpret_expr f st expr env in
      match possible_val with
      | Some v => ROk st v
      | None =>
          match edata expr with
          | FnCall f_expr _ =>
              match edata f_expr with
              | EIdentifier id => RErr (NoneError (Some id), epos expr)
              | _ => RErr (NoneError None, epos expr)
              end
          | _ => RPanic (* unreachable!() *)
          end
      end
  end

(** Left-to-right value-required evaluation of tuple elements and of
    call arguments. *)
with interpret_values (fuel : nat) (st : Store) (exprs : list ExprNode) (env : nat)
  {struct fuel} : R (list Value) :=
  match fuel with
  | 0 => RFuel
  | S f =>
      match exprs with
      | [] => ROk st []
      | e :: rest =>
          let? st, val := interpret_expr_as_value f st e env in
          let? st, vals := interpret_values f st rest env in
          ROk st (val :: vals)
      end
  end

with interpret_expr (fuel : nat) (st : Store) (e : ExprNode) (env : nat)
  {struct fuel} : R (option Value) :=
  match fuel with
  | 0 => RFuel
  | S f =>
  let 'mkExprNode pos data := e in
  match data with
  | ELiteral x => ROk st (Some (value_from_literal (lit_data x)))
  | EIdentifier id =>
      match env_get st env id with
      | Some v => ROk st (Some v)
      | None => RErr (ReferenceError id, pos)
      end
  | ETuple elems =>
      let? st, values := interpret_values f st elems env in
      ROk st (Some (VTuple values))
  | Unary op expr =>
      let? st, val := interpret_expr_as_value f st expr env in
      match op with
      | Neg =>
          match unary_minus H val with
          | Ok v => ROk st (Some v)
          | Err err => RErr (err, pos)
          end
      end
  | UnaryLogical op expr =>
      let? st, val := interpret_expr_as_value f st expr env in
      match op with
      | Not => ROk st (Some (VBool (negb (is_truthy H val))))
      end
  | Binary expr1 op expr2 =>
      let? st, val1 := interpret_expr_as_value f st expr1 env in
      let? st, val2 := interpret_expr_as_value f st expr2 env in
      let retval :=
        match op with
        | Add => add H val1 val2
        | Sub => subtract H val1 val2
        | Mul => multiply H val1 val2
        | Div => divide H val1 val2
        | Lt => less_than H val1 val2
        | Lte => less_than_or_equal H val1 val2
        | Gt => greater_than H val1 val2
        | Gte => greater_than_or_equal H val1 val2
        | Eq => Ok (VBool (value_eqb H val1 val2))
        end in
      match retval with
      | Ok v => ROk st (Some v)
      | Err err => RErr (err, pos)
      end
  | BinaryLogical expr1 op expr2 =>
      match op with
      | And =>
          let? st, val1 := interpret_expr_as_value f st expr1 env in
          if negb (is_truthy H val1) then ROk st (Some (VBool false))
          else
            let? st, val2 := interpret_expr_as_value f st expr2 env in
            ROk st (Some (VBool (is_truthy H val2)))
      | Or =>
          let? st, val1 := interpret_expr_as_value f st expr1 env in
          if is_truthy H val1 then ROk st (Some (VBool true))
          else
            let? st, val2 := interpret_expr_as_value f st expr2 env in
            ROk st (Some (VBool (is_truthy H val2)))
      end
  | MemberByIdx object_expr index_expr =>
      let? st, object := interpret_expr_as_value f st object_expr env in
      let? st, index := interpret_expr_as_value f st index_expr env in
      match object with
      | VTuple v =>
          match index with
          | VNumber (NInteger i) =>
              if Z.ltb i 0 then RErr (IndexOutOfBounds i, pos)
              else
                match v !! Z.to_nat i with
                | Some x => ROk st (Some x)
                | None => RErr (IndexOutOfBounds i, pos)
                end
          | non_int_index =>
              RErr (NonIntegralSubscript (get_type non_int_index), epos index_expr)
          end
      | obj => RErr (SubscriptOnNonSubscriptable (get_type obj), epos object_expr)
      end
  | FnDef maybe_id params body maybe_ret_type =>
      let param_names := map fst params in
      let param_types := map snd params in
      let func := User maybe_ret_type (mkCallSign (length params) false param_types)
                       param_names body env in
      let func_val := VFunction func in
      match maybe_id with
      | Some id => ROk (env_declare st env id func_val) (Some func_val)
      | None => ROk st (Some func_val)
      end
  | FnCall expr args =>
      let? st, val := interpret_expr_as_value f st expr env in
      match val with
      | VFunction func =>
          let? st, arg_vals := interpret_values f st args env in
          let call_sign := get_call_sign func in
          match check_args_compat arg_vals call_sign e with
          | Err err => RErr err
          | Ok _ =>
              match call_func f st func arg_vals with
              | ROk st possible_val => ROk st possible_val
              | RErr runtime_error => RErr (runtime_error, pos)
              | RPanic => RPanic
              | RFuel => RFuel
              end
          end
      | v =>
          match edata expr with
          | EIdentifier id => RErr (CallToNonFunction (Some id) (get_type v), epos expr)
          | _ => RErr (CallToNonFunction None (get_type v), epos expr)
          end
      end
  end
  end

with call_func (fuel : nat) (st : Store) (func : Function) (arg_vals : list Value)
  {struct fuel} : Res RuntimeError (option Value) :=
  match fuel with
  | 0 => RFuel
  | S f =>
  match func with
  | NativeVoid _ native_fn =>
      match native_void H native_fn arg_vals with
      | Ok _ => ROk st None
      | Err e => RErr e
      end
  | NativeReturning _ native_fn =>
      match native_returning H native_fn arg_vals with
      | Ok v => ROk st (Some v)
      | Err e => RErr e
      end
  | User _ _ param_names body cenv =>
      let '(st, function_env) := create_child st cenv in
      let st := declare_params st function_env param_names arg_vals in
      let '(st, inner_env) := create_child st function_env in
      match interpret_statement f st body inner_env with
      | RErr (err, epos') => RErr (InsideFunctionCall err epos')
      | ROk st statement_result =>
          match statement_result with
          | SRReturn possible_val =>
              match possible_val with
              | Some val => ROk st (Some val)
              | None => ROk st None
              end
          | _ => ROk st None
          end
      | RPanic => RPanic
      | RFuel => RFuel
      end
  end
  end.

(** [interpret_statements]: the top-level sequence; the last result. *)
Fixpoint interpret_statements (fuel : nat) (st : Store) (statements : list StmtNode) (env : nat)
  (last_result : option StmtResult) : R (option StmtResult) :=
  match statements with
  | [] => ROk st last_result
  | statement :: rest =>
      let? st, r := interpret_statement fuel st statement env in
      interpret_statements fuel st rest env (Some r)
  end.

End Interpreter.

(** Modelled from the spec: one concrete [ValueImpl] (used to run the
    evaluator on examples).  Integer arithmetic on [Z] (truncating
    division), Integer with Float promoted to Float, structural equality
    (functions never equal), decimal display of integers, and the
    truthiness rule "only [Bool(false)] is falsy"; the native callbacks
    succeed without a value. *)
Definition to_float (n : Number) : f64 :=
  match n with
  | NInteger i => SpecFloat.binary_normalize 53 1024 i 0 false
  | NFloat f => f
  end.

Definition num_arith (fi : Z -> Z -> Z) (ff : f64 -> f64 -> f64) (a b : Number) : Number :=
  match a, b with
  | NInteger x, NInteger y => NInteger (fi x y)
  | _, _ => NFloat (ff (to_float a) (to_float b))
  end.

Definition num_cmp (fi : Z -> Z -> bool) (ff : f64 -> f64 -> bool) (a b : Number) : bool :=
  match a, b with
  | NInteger x, NInteger y => fi x y
  | _, _ => ff (to_float a) (to_float b)
  end.

Fixpoint spec_value_eqb (a b : Value) : bool :=
  match a, b with
  | VNumber x, VNumber y => num_cmp Z.eqb (SpecFloat.SFeqb) x y
  | VBool x, VBool y => Bool.eqb x y
  | VString x, VString y => String.eqb x y
  | VTuple xs, VTuple ys =>
      (fix go (xs ys : list Value) : bool :=
         match xs, ys with
         | [], [] => true
         | x :: xs', y :: ys' => spec_value_eqb x y && go xs' ys'
         | _, _ => false
         end) xs ys
  | _, _ => false
  end.

Definition f64_to_string (f : f64) : string :=
  match f with
  | SpecFloat.S754_zero s => if s then "-0.0" else "0.0"
  | SpecFloat.S754_infinity s => if s then "-inf" else "inf"
  | SpecFloat.S754_nan => "NaN"
  | SpecFloat.S754_finite s m e =>
      (if s then "-" else "") +:+ pretty (Zpos m) +:+ "p" +:+ pretty e
  end%string.

Fixpoint spec_value_to_string (v : Value) : string :=
  match v with
  | VNumber (NInteger i) => pretty i
  | VNumber (NFloat f) => f64_to_string f
  | VBool b => if b then "true" else "false"
  | VString s => s
  | VTuple vs =>
      "(" +:+
      (fix go (vs : list Value) : string :=
         match vs with
         | [] => ""
         | [x] => spec_value_to_string x
         | x :: rest => spec_value_to_string x +:+ ", " +:+ go rest
         end) vs +:+ ")"
  | VFunction _ => "<function>"
  end%string.

Definition spec_is_truthy (v : Value) : bool :=
  match v with VBool b => b | _ => true end.

Definition spec_value_impl : ValueImpl := {|
  num_add := num_arith Z.add (SpecFloat.SFadd 53 1024);
  num_sub := num_arith Z.sub (SpecFloat.SFsub 53 1024);
  num_mul := num_arith Z.mul (SpecFloat.SFmul 53 1024);
  num_div := num_arith Z.quot (SpecFloat.SFdiv 53 1024);
  num_neg := fun n => match n with NInteger i => NInteger (- i) | NFloat f => NFloat (SpecFloat.SFopp f) end;
  num_lt := num_cmp Z.ltb SpecFloat.SFltb;
  num_le := num_cmp Z.leb SpecFloat.SFleb;
  num_gt := num_cmp Z.gtb (fun x y => SpecFloat.SFltb y x);
  num_ge := num_cmp Z.geb (fun x y => SpecFloat.SFleb y x);
  value_eqb := spec_value_eqb;
  value_to_string := spec_value_to_string;
  is_truthy := spec_is_truthy;
  native_void := fun _ _ => Ok tt;
  native_returning := fun k _ => Err (ReferenceError k)
|}.

End Eval.

(* ================================================================== *)
(** * Example programs and auxiliary definitions *)

Module EvalAux.
Import RAst Eval.

(** The callee name a [NoneError] carries for a call expression. *)
Definition callee_name (e : ExprNode) : option string :=
  match edata e with
  | FnCall f _ => match edata f with EIdentifier id => Some id | _ => None end
  | _ => None
  end.

Definition bool_lit (pos : OffsetSpan) (b : bool) : ExprNode :=
  mkExprNode pos (ELiteral (mkLiteralNode pos (Ast.LBool b))).

(** [undefinedFn()] *)
Definition undefined_fn_call (pos : OffsetSpan) : ExprNode :=
  mkExprNode pos (FnCall (mkExprNode pos (EIdentifier "undefinedFn")) []).

Definition int_lit (pos : OffsetSpan) (z : Z) : ExprNode :=
  mkExprNode pos (ELiteral (mkLiteralNode pos (Ast.Integer z))).

(** [(10,20,30)[i]] *)
Definition tuple_index_example (pos : OffsetSpan) (i : Z) : ExprNode :=
  mkExprNode pos (MemberByIdx
    (mkExprNode pos (ETuple [int_lit pos 10; int_lit pos 20; int_lit pos 30]))
    (int_lit pos i)).

(** [let f = fn(a, b) { return a; };] *)
Definition decl_two_params : StmtNode :=
  mkStmtNode (0,0) (VarDecl (Ast.Identifier Ast.Mutable "f")
    (mkExprNode (0,0) (FnDef None [("a", None); ("b", None)]
       (mkStmtNode (0,0) (Block [mkStmtNode (0,0) (Return (Some (mkExprNode (0,0) (EIdentifier "a"))))]))
       None))).

(** [f(args);] with the call at [(3,9)] and the callee [f] at [(3,4)]. *)
Definition call_f (args : list Z) : StmtNode :=
  mkStmtNode (3,9) (SExpr (mkExprNode (3,9)
    (FnCall (mkExprNode (3,4) (EIdentifier "f")) (map (int_lit (3,9)) args)))).

(** [(fn() { return 1; })] called with no arguments: its body. *)
Definition return_one : StmtNode :=
  mkStmtNode (0,0) (Return (Some (int_lit (0,0) 1))).

(** The store after entering a call of a closure defined at the root:
    the root, the parameter scope and the body's scope. *)
Definition call_frames : Store :=
  [mkScope ∅ None; mkScope ∅ (Some 0); mkScope ∅ (Some 1)].

(** [(fn() {})()]: a call that yields no value, its callee not an identifier. *)
Definition void_call : ExprNode :=
  mkExprNode (0,0) (FnCall (mkExprNode (0,0) (FnDef None [] (mkStmtNode (0,0) (Block [])) None)) []).

(** From [st] to [st'] every scope stays in place with its parent and
    its names; the scopes satisfying [P] may have gained names. *)
Definition scopes_kept (st st' : Store) (P : nat -> Prop) : Prop :=
  length st <= length st' /\
  forall k sc, st !! k = Some sc -> exists sc', st' !! k = Some sc' /\ parent sc' = parent sc /\
    dom (vars sc) ⊆ dom (vars sc') /\ (~ P k -> dom (vars sc') = dom (vars sc)).

End EvalAux.

Module CheckerAux.
Import Ast TypeChecker.

#[global] Instance BinaryOp_eq_dec : EqDecision BinaryOp.
Proof. solve_decision. Defined.
#[global] Instance UnaryOp_eq_dec : EqDecision UnaryOp.
Proof. solve_decision. Defined.
#[global] Instance InterpreterError_eq_dec : EqDecision InterpreterError.
Proof. solve_decision. Defined.
#[global] Instance TypeCheckerIssue_eq_dec : EqDecision TypeCheckerIssue.
Proof. solve_decision. Defined.

(** Induction over statements, through the statement lists of blocks. *)
Section StatementInd.
Variable P : StatementNode -> Prop.
Hypothesis HAssignment : forall p l e, P (mkStatementNode p (Assignment l e)).
Hypothesis HVariableDeclaration : forall p v e, P (mkStatementNode p (VariableDeclaration v e)).
Hypothesis HExpression : forall p e, P (mkStatementNode p (Expression e)).
Hypothesis HBlock : forall p ss, Forall P ss -> P (mkStatementNode p (Block ss)).
Hypothesis HIfThen : forall p c t, P t -> P (mkStatementNode p (IfThen c t)).
Hypothesis HIfThenElse : forall p c t f, P t -> P f -> P (mkStatementNode p (IfThenElse c t f)).
Hypothesis HLoop : forall p b, P b -> P (mkStatementNode p (Loop b)).
Hypothesis HBreak : forall p, P (mkStatementNode p Break).
Hypothesis HEmpty : forall p, P (mkStatementNode p Empty).

Fixpoint statement_ind (s : StatementNode) : P s :=
  match s with
  | mkStatementNode p d =>
      match d as d' return P (mkStatementNode p d') with
      | Assignment l e => HAssignment p l e
      | VariableDeclaration v e => HVariableDeclaration p v e
      | Expression e => HExpression p e
      | Block ss =>
          @HBlock p ss
            ((fix go (l : list StatementNode) : Forall P l :=
                match l with
                | [] => @List.Forall_nil _ P
                | x :: l' => @List.Forall_cons _ P x l' (statement_ind x) (go l')
                end) ss)
      | IfThen c t => @HIfThen p c t (statement_ind t)
      | IfThenElse c t f => @HIfThenElse p c t f (statement_ind t) (statement_ind f)
      | Loop b => @HLoop p b (statement_ind b)
      | Break => HBreak p
      | Empty => HEmpty p
      end
  end.
End StatementInd.

(** Two environments with the same scopes holding the same names. *)
Definition same_dom (e1 e2 : TypeEnvironment) : Prop :=
  Forall2 (fun m1 m2 : gmap string Ty => dom m1 = dom m2) e1 e2.

(** The innermost scope may have gained names, the others are unchanged
    in their names. *)
Definition top_grows (e1 e2 : TypeEnvironment) : Prop :=
  match e1, e2 with
  | [], [] => True
  | t1 :: r1, t2 :: r2 => dom t1 ⊆ dom t2 /\ same_dom r1 r2
  | _, _ => False
  end.

(** What the merge loop computes for one name. *)
Definition merged_type (te ee : TypeEnvironment) (n : string) : Ty :=
  match get_type n te, get_type n ee with
  | Some t1, Some t2 => if decide (t2 = t1) then t1 else TAny
  | _, _ => TAny
  end.

Definition branch_warnings (pos : OffsetSpan) (names : list string) (te ee : TypeEnvironment)
  : list TypeCheckerIssueWithPosition :=
  map (fun n => (MultipleTypesFromBranchWarning n, pos))
      (filter (fun n => get_type n ee <> get_type n te) names).

Definition lit_true : ExprNode := mkExprNode (0,0) (ELiteral (LBool true)).
Definition no_builtins : string -> option BuiltinKind := fun _ => None.

(** The [else] branch of C1's failing input: [let y = true;]. *)
Definition decl_y : StatementNode :=
  mkStatementNode (0,0) (VariableDeclaration (Identifier Mutable "y") lit_true).

(** [if (true) {} else let y = true;] *)
Definition if_else_declares : StatementNode :=
  mkStatementNode (0,0) (IfThenElse lit_true (mkStatementNode (0,0) (Block [])) decl_y).

(** [let x = 1;] as a bare [then] branch. *)
Definition decl_x : StatementNode :=
  mkStatementNode (0,0) (VariableDeclaration (Identifier Mutable "x")
                           (mkExprNode (0,0) (ELiteral (Integer 1)))).

(** [if (true) let x = 1; else {}] *)
Definition if_then_declares : StatementNode :=
  mkStatementNode (0,0) (IfThenElse lit_true decl_x (mkStatementNode (0,0) (Block []))).

(** [{ u; }] *)
Definition block_u : StatementNode :=
  mkStatementNode (5,6) (Block [mkStatementNode (5,6) (Expression (mkExprNode (5,6) (EIdentifier "u")))]).

(** A registry that knows one builtin, [println], returning nothing. *)
Definition println_void : string -> option BuiltinKind :=
  fun name => if String.eqb name "println" then Some Void else None.

(** [x = true;] *)
Definition assign_x_true : StatementNode :=
  mkStatementNode (0,0) (Assignment (mkLhsExprNode (0,0) (LhsIdentifier "x")) lit_true).

(** [if (true) { x = true; } else { }] *)
Definition branch_merge_example : StatementNode :=
  mkStatementNode (0,0) (IfThenElse lit_true
    (mkStatementNode (0,0) (Block [assign_x_true])) (mkStatementNode (0,0) (Block []))).

(** Induction over checker expressions, with the arguments of a call. *)
Section ExprInd.
Variable P : ExprNode -> Prop.
Hypothesis HLiteral : forall p x, P (mkExprNode p (ELiteral x)).
Hypothesis HIdentifier : forall p id, P (mkExprNode p (EIdentifier id)).
Hypothesis HBinary : forall p e1 op e2, P e1 -> P e2 -> P (mkExprNode p (BinaryExpression e1 op e2)).
Hypothesis HBinaryLogical : forall p e1 op e2, P e1 -> P e2 ->
  P (mkExprNode p (BinaryLogicalExpression e1 op e2)).
Hypothesis HUnary : forall p op e, P e -> P (mkExprNode p (UnaryExpression op e)).
Hypothesis HUnaryLogical : forall p op e, P e -> P (mkExprNode p (UnaryLogicalExpression op e)).
Hypothesis HFunctionCall : forall p id args, Forall P args -> P (mkExprNode p (FunctionCall id args)).

Fixpoint expr_ind (e : ExprNode) : P e :=
  match e with
  | mkExprNode p d =>
      match d as d' return P (mkExprNode p d') with
      | ELiteral x => HLiteral p x
      | EIdentifier id => HIdentifier p id
      | BinaryExpression e1 op e2 => @HBinary p e1 op e2 (expr_ind e1) (expr_ind e2)
      | BinaryLogicalExpression e1 op e2 => @HBinaryLogical p e1 op e2 (expr_ind e1) (expr_ind e2)
      | UnaryExpression op e1 => @HUnary p op e1 (expr_ind e1)
      | UnaryLogicalExpression op e1 => @HUnaryLogical p op e1 (expr_ind e1)
      | FunctionCall id args =>
          @HFunctionCall p id args
            ((fix go (l : list ExprNode) : Forall P l :=
                match l with
                | [] => @List.Forall_nil _ P
                | x :: l' => @List.Forall_cons _ P x l' (expr_ind x) (go l')
                end) args)
      end
  end.
End ExprInd.

End CheckerAux.

Module DepthAux.

(** The number of environments on the parent chain of scope [i]
    ([Rc] parents in [environment.rs]), followed for at most [fuel]
    links. *)
Fixpoint depth_fuel (fuel : nat) (st : Eval.Store) (i : nat) : nat :=
  match fuel with
  | 0 => 0
  | S f =>
      match st !! i with
      | None => 0
      | Some sc =>
          match Eval.parent sc with
          | None => 1
          | Some p => S (depth_fuel f st p)
          end
      end
  end.

Definition scope_depth (st : Eval.Store) (i : nat) : nat := depth_fuel (length st) st i.

(** The arena only ever appends children of existing scopes, so every
    parent index is below its child's. *)
Definition parents_below (st : Eval.Store) : Prop :=
  forall i sc p, st !! i = Some sc -> Eval.parent sc = Some p -> p < i.

(** [loop { break; }] as the checker reads it ... *)
Definition tc_loop_break : Ast.StatementNode :=
  Ast.mkStatementNode (0,0) (Ast.Loop (Ast.mkStatementNode (0,0)
    (Ast.Block [Ast.mkStatementNode (0,0) Ast.Break]))).

(** ... and as the evaluator reads it. *)
Definition ev_loop_break : RAst.StmtNode :=
  RAst.mkStmtNode (0,0) (RAst.Loop (RAst.mkStmtNode (0,0)
    (RAst.Block [RAst.mkStmtNode (0,0) RAst.Break]))).

End DepthAux.

(* ================================================================== *)
(** * Properties of the evaluator *)

Module EvalFacts.
Import RAst Eval EvalAux.

Lemma bind_ROk_inv {E A B} (m : Res E A) (k : Store -> A -> Res E B) st b :
  bind m k = ROk st b -> exists st1 a, m = ROk st1 a /\ k st1 a = ROk st b.
Proof. destruct m; simpl; try discriminate. intros Hk. eauto. Qed.

Lemma bind_RPanic_inv {E A B} (m : Res E A) (k : Store -> A -> Res E B) :
  bind m k = RPanic -> m = RPanic \/ exists st1 a, m = ROk st1 a /\ k st1 a = RPanic.
Proof. destruct m; simpl; try discriminate; eauto. Qed.

(** An [interpret_expr] step that is not a call never yields void. *)
Lemma interpret_expr_void_is_call H fuel st e env st' :
  interpret_expr H fuel st e env = ROk st' None ->
  exists f args, edata e = FnCall f args.
Proof.
  destruct fuel as [|fuel]; simpl; [discriminate|].
  destruct e as [pos d]; simpl.
  destruct d; intros Hr; eauto;
    repeat match goal with
    | Hb : bind ?m _ = ROk _ _ |- _ =>
        apply bind_ROk_inv in Hb; destruct Hb as (? & ? & ? & Hb)
    | Hm : match ?x with _ => _ end = ROk _ _ |- _ => destruct x
    | Hm : (if ?x then _ else _) = ROk _ _ |- _ => destruct x
    end; try discriminate.
Qed.

(** C5: at a value-required site ([interpret_expr_as_value]) a void
    result is rejected with a [NoneError] at the expression's position,
    naming the callee when the callee expression is an identifier; void
    only ever comes from a call, so the [unreachable!()] arm is never
    taken; a variable declaration, a value-required site, fails in the
    same way on a void initializer. *)
Theorem value_required_rejects_void H fuel st expr env :
  (forall st', interpret_expr H fuel st expr env = ROk st' None ->
     (exists f args, edata expr = FnCall f args) /\
     interpret_expr_as_value H (S fuel) st expr env = RErr (NoneError (callee_name expr), epos expr)) /\
  (interpret_expr_as_value H (S fuel) st expr env = RPanic ->
     interpret_expr H fuel st expr env = RPanic) /\
  (forall st' pos v, interpret_expr H fuel st expr env = ROk st' None ->
     interpret_statement H (S (S fuel)) st (mkStmtNode pos (VarDecl v expr)) env =
       RErr (NoneError (callee_name expr), epos expr)).
Proof.
  assert (Hvoid : forall st', interpret_expr H fuel st expr env = ROk st' None ->
     (exists f args, edata expr = FnCall f args) /\
     interpret_expr_as_value H (S fuel) st expr env = RErr (NoneError (callee_name expr), epos expr)).
  { intros st' Hr. pose proof (interpret_expr_void_is_call _ _ _ _ _ Hr) as Hc.
    split; [exact Hc|].
    destruct Hc as (f & args & Hd).
    simpl. rewrite Hr. simpl. unfold callee_name. rewrite Hd.
    destruct (edata f); reflexivity. }
  split; [exact Hvoid|]. split.
  - simpl. intros Hp. apply bind_RPanic_inv in Hp.
    destruct Hp as [Hp | (st1 & a & Hm & Hk)]; [exact Hp|].
    destruct a as [v|]; [discriminate|].
    destruct (interpret_expr_void_is_call _ _ _ _ _ Hm) as (f & args & Hd).
    rewrite Hd in Hk. destruct (edata f); discriminate.
  - intros st' pos v Hr. destruct (Hvoid st' Hr) as [_ He].
    change (interpret_statement H (S (S fuel)) st (mkStmtNode pos (VarDecl v expr)) env)
      with (bind (interpret_expr_as_value H (S fuel) st expr env)
              (fun st val => match v with
                             | Ast.Identifier _ name => ROk (env_declare st env name val) SRNone
                             end)).
    rewrite He. reflexivity.
Qed.

(** C4: [and] evaluates its right operand only after a truthy left
    operand, [or] only after a falsy one (the right operand is arbitrary
    otherwise), the result is always a [Bool] built from truthiness, and
    [false and undefinedFn()] / [true or undefinedFn()] give [Bool(false)]
    / [Bool(true)] without error in any environment. *)
Theorem logical_short_circuit H :
  (forall fuel st env pos e1 e2 st1 v1,
     interpret_expr_as_value H fuel st e1 env = ROk st1 v1 -> is_truthy H v1 = false ->
     interpret_expr H (S fuel) st (mkExprNode pos (BinaryLogical e1 And e2)) env
       = ROk st1 (Some (VBool false))) /\
  (forall fuel st env pos e1 e2 st1 v1,
     interpret_expr_as_value H fuel st e1 env = ROk st1 v1 -> is_truthy H v1 = true ->
     interpret_expr H (S fuel) st (mkExprNode pos (BinaryLogical e1 And e2)) env
       = bind (interpret_expr_as_value H fuel st1 e2 env)
              (fun st2 v2 => ROk st2 (Some (VBool (is_truthy H v2))))) /\
  (forall fuel st env pos e1 e2 st1 v1,
     interpret_expr_as_value H fuel st e1 env = ROk st1 v1 -> is_truthy H v1 = true ->
     interpret_expr H (S fuel) st (mkExprNode pos (BinaryLogical e1 Or e2)) env
       = ROk st1 (Some (VBool true))) /\
  (forall fuel st env pos e1 e2 st1 v1,
     interpret_expr_as_value H fuel st e1 env = ROk st1 v1 -> is_truthy H v1 = false ->
     interpret_expr H (S fuel) st (mkExprNode pos (BinaryLogical e1 Or e2)) env
       = bind (interpret_expr_as_value H fuel st1 e2 env)
              (fun st2 v2 => ROk st2 (Some (VBool (is_truthy H v2))))) /\
  (forall fuel st env pos e1 op e2 st' r,
     interpret_expr H fuel st (mkExprNode pos (BinaryLogical e1 op e2)) env = ROk st' r ->
     exists b, r = Some (VBool b)) /\
  ((forall b, is_truthy H (VBool b) = b) ->
   forall n st env pos,
     interpret_expr H (S (S (S n))) st
       (mkExprNode pos (BinaryLogical (bool_lit pos false) And (undefined_fn_call pos))) env
       = ROk st (Some (VBool false)) /\
     interpret_expr H (S (S (S n))) st
       (mkExprNode pos (BinaryLogical (bool_lit pos true) Or (undefined_fn_call pos))) env
       = ROk st (Some (VBool true))).
Proof.
  split; [|split; [|split; [|split; [|split]]]].
  - intros fuel st env pos e1 e2 st1 v1 He Ht. simpl. rewrite He. simpl. rewrite Ht. reflexivity.
  - intros fuel st env pos e1 e2 st1 v1 He Ht. simpl. rewrite He. simpl. rewrite Ht. reflexivity.
  - intros fuel st env pos e1 e2 st1 v1 He Ht. simpl. rewrite He. simpl. rewrite Ht. reflexivity.
  - intros fuel st env pos e1 e2 st1 v1 He Ht. simpl. rewrite He. simpl. rewrite Ht. reflexivity.
  - intros [|fuel] st env pos e1 op e2 st' r; simpl; [discriminate|].
    destruct op; intros Hr;
      apply bind_ROk_inv in Hr; destruct Hr as (st1 & v1 & _ & Hr);
      destruct (is_truthy H v1); simpl in Hr;
      try (injection Hr as _ <-; eauto);
      apply bind_ROk_inv in Hr; destruct Hr as (st2 & v2 & _ & Hr);
      injection Hr as _ <-; eauto.
  - intros Htb n st env pos. simpl. rewrite !Htb. split; reflexivity.
Qed.

(** C6: a user-defined call that completes yields [v] exactly when its
    body yields [Return(Some(v))]; every other body outcome gives void.
    The body runs in a scope nested in the parameter scope, itself a
    child of the captured environment. *)
Theorem user_call_result H fuel st rt cs names body cenv args st' r :
  call_func H (S fuel) st (User rt cs names body cenv) args = ROk st' r ->
  let '(st1, function_env) := create_child st cenv in
  let st2 := declare_params st1 function_env names args in
  let '(st3, inner_env) := create_child st2 function_env in
  exists sr, interpret_statement H fuel st3 body inner_env = ROk st' sr /\
    (forall v, r = Some v <-> sr = SRReturn (Some v)) /\
    (r = None <-> forall v, sr <> SRReturn (Some v)).
Proof.
  simpl.
  destruct (interpret_statement H fuel _ body _) as [st3 sr|[err ep]| |] eqn:Hb;
    try discriminate.
  intros Hr. exists sr.
  destruct sr as [| v | | [v|]]; injection Hr as <- <-;
    repeat split; intros; try congruence;
    match goal with
    | Hn : forall w, _ <> _ |- _ => exfalso; eapply Hn; reflexivity
    | _ => idtac
    end.
Qed.

(** C7: subscripting.  Once the object and the index are evaluated: a
    non-tuple object is [SubscriptOnNonSubscriptable]; a tuple with a
    non-Integer index is [NonIntegralSubscript]; a negative or too large
    Integer index is [IndexOutOfBounds] of that index; otherwise the
    element.  [(10,20,30)[1]] is [20]. *)
Theorem member_by_idx_cases H fuel st env pos oe ie st1 obj st2 idx :
  interpret_expr_as_value H fuel st oe env = ROk st1 obj ->
  interpret_expr_as_value H fuel st1 ie env = ROk st2 idx ->
  let r := interpret_expr H (S fuel) st (mkExprNode pos (MemberByIdx oe ie)) env in
  ((forall vs, obj <> VTuple vs) ->
     r = RErr (SubscriptOnNonSubscriptable (get_type obj), epos oe)) /\
  (forall vs, obj = VTuple vs -> (forall i, idx <> VNumber (NInteger i)) ->
     r = RErr (NonIntegralSubscript (get_type idx), epos ie)) /\
  (forall vs i, obj = VTuple vs -> idx = VNumber (NInteger i) ->
     (i < 0 \/ Z.of_nat (length vs) <= i)%Z -> r = RErr (IndexOutOfBounds i, pos)) /\
  (forall vs i x, obj = VTuple vs -> idx = VNumber (NInteger i) ->
     (0 <= i)%Z -> vs !! Z.to_nat i = Some x -> r = ROk st2 (Some x)) /\
  (forall n p, interpret_expr H (10 + n) st (tuple_index_example p 1) env
                 = ROk st (Some (VNumber (NInteger 20)))).
Proof.
  intros Ho Hi r. subst r. simpl. rewrite Ho. simpl. rewrite Hi. simpl.
  split; [|split; [|split; [|split]]].
  - intros Hnt. destruct obj; try reflexivity. exfalso. eapply Hnt. reflexivity.
  - intros vs -> Hni.
    destruct idx as [[i|f]| | | |]; try reflexivity. exfalso. eapply Hni. reflexivity.
  - intros vs i -> -> Hr.
    destruct (Z.ltb_spec i 0); [reflexivity|].
    destruct Hr as [Hr|Hr]; [lia|].
    rewrite (proj2 (lookup_ge_None vs (Z.to_nat i))); [reflexivity|lia].
  - intros vs i x -> -> Hge Hx.
    destruct (Z.ltb_spec i 0); [lia|]. rewrite Hx. reflexivity.
  - intros n p. reflexivity.
Qed.

(** The arity check of a call: arguments are evaluated left to right as values
    before the call signature is consulted; a non-variadic callee given a
    different number of arguments fails with [ArgumentLength] at the
    call's position, and the name it carries is [None] even when the
    callee expression is an identifier ([check_args_compat] receives the
    call node [e], not the callee [expr]); with the right count the
    check passes. *)
Theorem call_arity_check H fuel st env pos fe args st1 func st2 vals :
  interpret_expr_as_value H fuel st fe env = ROk st1 (VFunction func) ->
  interpret_values H fuel st1 args env = ROk st2 vals ->
  (variadic (get_call_sign func) = false ->
   num_params (get_call_sign func) <> length vals ->
   interpret_expr H (S fuel) st (mkExprNode pos (FnCall fe args)) env
     = RErr (ArgumentLength None, pos)) /\
  (num_params (get_call_sign func) = length vals ->
   interpret_expr H (S fuel) st (mkExprNode pos (FnCall fe args)) env
     = match call_func H fuel st2 func vals with
       | ROk st' pv => ROk st' pv
       | RErr err => RErr (err, pos)
       | RPanic => RPanic
       | RFuel => RFuel
       end).
Proof.
  intros Hf Ha. simpl. rewrite Hf. simpl. rewrite Ha. simpl.
  unfold check_args_compat. simpl. split.
  - intros Hv Hn. rewrite Hv. apply Nat.eqb_neq in Hn. rewrite Hn. reflexivity.
  - intros Hn. rewrite Hn, Nat.eqb_refl, andb_false_r. reflexivity.
Qed.

(** C9: [+] on two numbers is a number, on two tuples or two strings the
    concatenation, on a string and any other value the string joined
    with the other value's text (on either side), and a
    [BinaryTypeError] for every other pair; with the spec's
    [Display], [1 + "x"] is ["1x"] and ["x" + 1] is ["x1"]. *)
Theorem add_dispatch H :
  (forall a b, add H (VNumber a) (VNumber b) = Ok (VNumber (num_add H a b))) /\
  (forall a b, add H (VTuple a) (VTuple b) = Ok (VTuple (a ++ b))) /\
  (forall a b, add H (VString a) (VString b) = Ok (VString (a +:+ b))) /\
  (forall s v, (forall s', v <> VString s') ->
     add H (VString s) v = Ok (VString (s +:+ value_to_string H v)) /\
     add H v (VString s) = Ok (VString (value_to_string H v +:+ s))) /\
  (forall a b, (forall s, a <> VString s) -> (forall s, b <> VString s) ->
     (forall x y, a <> VNumber x \/ b <> VNumber y) ->
     (forall x y, a <> VTuple x \/ b <> VTuple y) ->
     add H a b = Err (BinaryTypeError Add (get_type a) (get_type b))) /\
  add spec_value_impl (VNumber (NInteger 1)) (VString "x") = Ok (VString "1x") /\
  add spec_value_impl (VString "x") (VNumber (NInteger 1)) = Ok (VString "x1").
Proof.
  split; [reflexivity|]. split; [reflexivity|]. split; [reflexivity|].
  split; [|split; [|split; reflexivity]].
  - intros s v Hv. destruct v; try (split; reflexivity). exfalso. eapply Hv. reflexivity.
  - intros a b Ha Hb Hn Ht.
    destruct a, b; try reflexivity;
      try (exfalso; eapply Ha; reflexivity); try (exfalso; eapply Hb; reflexivity).
    + destruct (Hn n n0); congruence.
    + destruct (Ht vs vs0); congruence.
Qed.

(** C8 (failing input). [let f = fn(a, b) { return a; }; f(1);] fails with
    [ArgumentLength(None)] at the call's position: the error does not
    name the callee [f] although the callee is an identifier, because
    [check_args_compat] is given the call node, never an identifier.
    [f(1, 2)] passes the check and returns [1]. *)
Theorem arity_error_never_names_callee H :
  interpret_statements H 20 (fst new_root) [decl_two_params; call_f [1%Z]] 0 None
    = RErr (ArgumentLength None, (3,9)) /\
  (exists st, interpret_statements H 20 (fst new_root) [decl_two_params; call_f [1%Z; 2%Z]] 0 None
    = ROk st (Some (SRValue (VNumber (NInteger 1))))).
Proof.
  split; [vm_compute; reflexivity | eexists; vm_compute; reflexivity].
Qed.

Lemma value_required_rejects_void_witness :
  interpret_expr_as_value spec_value_impl 11 (fst new_root) void_call 0
    = RErr (NoneError None, (0,0)).
Proof.
  destruct (value_required_rejects_void spec_value_impl 10 (fst new_root) void_call 0)
    as [Hv _].
  edestruct Hv as [_ Hr]; [reflexivity|]. exact Hr.
Defined.

Lemma logical_short_circuit_witness :
  interpret_expr spec_value_impl 3 (fst new_root)
    (mkExprNode (0,0) (BinaryLogical (bool_lit (0,0) false) And (undefined_fn_call (0,0)))) 0
    = ROk (fst new_root) (Some (VBool false)) /\
  interpret_expr spec_value_impl 3 (fst new_root)
    (mkExprNode (0,0) (BinaryLogical (bool_lit (0,0) true) Or (undefined_fn_call (0,0)))) 0
    = ROk (fst new_root) (Some (VBool true)).
Proof.
  destruct (logical_short_circuit spec_value_impl) as (_ & _ & _ & _ & _ & Hex).
  exact (Hex (fun b => eq_refl) 0 (fst new_root) 0 (0,0)).
Defined.

Lemma user_call_result_witness :
  interpret_statement spec_value_impl 5 call_frames return_one 2
    = ROk call_frames (SRReturn (Some (VNumber (NInteger 1)))).
Proof.
  pose proof (@user_call_result spec_value_impl 5 [mkScope ∅ None] None
                (mkCallSign 0 false []) [] return_one 0 [] call_frames
                (Some (VNumber (NInteger 1))) eq_refl) as Hc.
  hnf in Hc. destruct Hc as (sr & Hb & Hv & _).
  refine (eq_trans Hb _). f_equal. apply Hv. reflexivity.
Defined.

Lemma member_by_idx_cases_witness :
  interpret_expr spec_value_impl 11 (fst new_root) (tuple_index_example (0,0) 1) 0
    = ROk (fst new_root) (Some (VNumber (NInteger 20))) /\
  interpret_expr spec_value_impl 11 (fst new_root) (tuple_index_example (0,0) 5) 0
    = RErr (IndexOutOfBounds 5, (0,0)).
Proof.
  pose proof (@member_by_idx_cases spec_value_impl 10 (fst new_root) 0 (0,0)
    (mkExprNode (0,0) (ETuple [int_lit (0,0) 10; int_lit (0,0) 20; int_lit (0,0) 30]))
    (int_lit (0,0) 1) (fst new_root)
    (VTuple [VNumber (NInteger 10); VNumber (NInteger 20); VNumber (NInteger 30)])
    (fst new_root) (VNumber (NInteger 1)) eq_refl eq_refl) as Hm.
  pose proof (@member_by_idx_cases spec_value_impl 10 (fst new_root) 0 (0,0)
    (mkExprNode (0,0) (ETuple [int_lit (0,0) 10; int_lit (0,0) 20; int_lit (0,0) 30]))
    (int_lit (0,0) 5) (fst new_root)
    (VTuple [VNumber (NInteger 10); VNumber (NInteger 20); VNumber (NInteger 30)])
    (fst new_root) (VNumber (NInteger 5)) eq_refl eq_refl) as Ho.
  cbv zeta in Hm, Ho.
  destruct Hm as (_ & _ & _ & Hin & _). destruct Ho as (_ & _ & Hout & _ & _).
  split.
  - exact (Hin _ 1%Z _ eq_refl eq_refl ltac:(lia) eq_refl).
  - apply (Hout _ 5%Z eq_refl eq_refl). right. simpl. lia.
Defined.

Lemma add_dispatch_witness :
  add spec_value_impl (VString "a") (VBool true)
    = Ok (VString ("a" +:+ value_to_string spec_value_impl (VBool true))) /\
  add spec_value_impl (VNumber (NInteger 1)) (VBool true)
    = Err (BinaryTypeError Add TyNumber TyBool).
Proof.
  destruct (add_dispatch spec_value_impl) as (_ & _ & _ & Hs & Hother & _).
  split.
  - apply (Hs "a" (VBool true)). intros s' Hs'. discriminate.
  - apply (Hother (VNumber (NInteger 1)) (VBool true)).
    + intros s' Hs'. discriminate.
    + intros s' Hs'. discriminate.
    + intros x y. right. discriminate.
    + intros x y. left. discriminate.
Defined.

End EvalFacts.

(* ================================================================== *)
(** * Properties of the type checker *)

Module CheckerFacts.
Import Ast TypeChecker CheckerAux.

Lemma same_dom_refl e : same_dom e e.
Proof. induction e; constructor; auto. Qed.

Lemma same_dom_trans e1 e2 e3 : same_dom e1 e2 -> same_dom e2 e3 -> same_dom e1 e3.
Proof.
  unfold same_dom. intros H12. revert e3.
  induction H12 as [|x y l l' Hxy _ IH]; intros e3 H23;
    inversion H23 as [|? z ? l'' Hyz H']; subst; constructor;
    [congruence | apply IH; exact H'].
Qed.

Lemma top_grows_refl e : top_grows e e.
Proof. destruct e; simpl; auto using same_dom_refl. Qed.

Lemma top_grows_trans e1 e2 e3 : top_grows e1 e2 -> top_grows e2 e3 -> top_grows e1 e3.
Proof.
  destruct e1, e2, e3; simpl; try tauto.
  intros [? ?] [? ?]. split; [set_solver | eauto using same_dom_trans].
Qed.

Lemma same_dom_top_grows e1 e2 : same_dom e1 e2 -> top_grows e1 e2.
Proof.
  intros Hs. destruct Hs; simpl; auto. split; [|auto]. rewrite H. set_solver.
Qed.

Lemma set_same_dom id t env : same_dom env (set id t env).1.
Proof.
  induction env as [|table rest IH]; simpl; [constructor|].
  destruct (table !! id) eqn:Ht.
  - constructor; [|apply same_dom_refl]. simpl.
    rewrite dom_insert_L. apply elem_of_dom_2 in Ht. set_solver.
  - destruct (set id t rest) as [rest' found] eqn:Hs. simpl in *.
    constructor; auto.
Qed.

Lemma declare_top_grows v t env env' : declare v t env = Some env' -> top_grows env env'.
Proof.
  destruct v as [bt id]; destruct env as [|table rest]; simpl; [discriminate|].
  intros [= <-]. simpl. split; [rewrite dom_insert_L; set_solver | apply same_dom_refl].
Qed.

Lemma merge_branches_same_dom pos names te ee env env' is :
  merge_branches pos names te ee env = Some (env', is) -> same_dom env env'.
Proof.
  revert env is. induction names as [|n rest IH]; intros env is; simpl.
  - intros [= <- _]. apply same_dom_refl.
  - destruct (get_type n te); [|discriminate].
    destruct (get_type n ee); [|discriminate].
    case_decide.
    + intros Hm. eapply same_dom_trans; [apply set_same_dom | eapply IH; eauto].
    + destruct (merge_branches pos rest te ee (set n TAny env).1) as [[e i]|] eqn:Hm;
        [|discriminate].
      intros [= <- _]. eapply same_dom_trans; [apply set_same_dom | eapply IH; eauto].
Qed.

Lemma check_statements_with_top_grows cs ss env env' is :
  Forall (fun s => forall env env' is, cs s env = Some (env', is) -> top_grows env env') ss ->
  check_statements_with cs ss env = Some (env', is) -> top_grows env env'.
Proof.
  intros Hall. revert env is. induction Hall as [|s ss Hs Hall IH]; intros env is; simpl.
  - intros [= <- _]. apply top_grows_refl.
  - destruct (cs s env) as [[env1 is1]|] eqn:Hc; [|discriminate].
    destruct (check_statements_with cs ss env1) as [[env2 is2]|] eqn:Hr; [|discriminate].
    intros [= <- _]. eapply top_grows_trans; [eapply Hs; eauto | eapply IH; eauto].
Qed.

Lemma check_statement_top_grows reg s :
  forall env env' is, check_statement reg s env = Some (env', is) -> top_grows env env'.
Proof.
  induction s as [p l e|p v e|p e|p ss Hss|p c t IHt|p c t f IHt IHf|p b IHb|p|p]
    using statement_ind; intros env env' is; simpl.
  - (* Assignment *)
    destruct (check_expr reg e env) as [r|]; [|discriminate].
    destruct (operand_type e r) as [ct is0].
    destruct (lhs_data l) as [id].
    destruct (set id ct env) as [env1 found] eqn:Hs.
    assert (Hd : same_dom env env1) by (pose proof (set_same_dom id ct env) as Hd; rewrite Hs in Hd; exact Hd).
    destruct found; intros [= <- _]; apply same_dom_top_grows; exact Hd.
  - (* VariableDeclaration *)
    destruct (check_expr reg e env) as [r|]; [|discriminate].
    destruct (operand_type e r) as [ct is0].
    destruct (declare v ct env) as [env1|] eqn:Hd; [|discriminate].
    intros [= <- _]. eapply declare_top_grows; eauto.
  - (* Expression *)
    destruct (check_expr reg e env) as [[r|r]|]; try discriminate;
      intros [= <- _]; apply top_grows_refl.
  - (* Block *)
    destruct (check_statements_with (check_statement reg) ss (start_scope env))
      as [[env1 is1]|] eqn:Hc; [|discriminate].
    intros [= <- _].
    pose proof (@check_statements_with_top_grows _ _ _ _ _ Hss Hc) as Hg.
    unfold start_scope in Hg. destruct env1 as [|t1 r1]; simpl in Hg; [contradiction|].
    apply same_dom_top_grows. apply Hg.
  - (* IfThen *)
    destruct (check_expr reg c env) as [r|]; [|discriminate].
    destruct (check_condition c r) as [early|issues].
    + intros [= <- _]. apply top_grows_refl.
    + destruct (check_statement reg t env) as [[env1 is1]|] eqn:Ht; [|discriminate].
      intros [= <- _]. eapply IHt; eauto.
  - (* IfThenElse *)
    destruct (check_expr reg c env) as [r|]; [|discriminate].
    destruct (check_condition c r) as [early|issues].
    + intros [= <- _]. apply top_grows_refl.
    + destruct (check_statement reg t env) as [[env1 is1]|]; [|discriminate].
      destruct (check_statement reg f env) as [[env2 is2]|]; [|discriminate].
      destruct (merge_branches p (elements (get_all_keys env1)) env1 env2 env)
        as [[env3 is3]|] eqn:Hm; [|discriminate].
      intros [= <- _]. apply same_dom_top_grows. eapply merge_branches_same_dom; eauto.
  - (* Loop *)
    eapply IHb.
  - intros [= <- _]. apply top_grows_refl.
  - intros [= <- _]. apply top_grows_refl.
Qed.

Lemma block_same_dom reg p ss env env' is :
  check_statement reg (mkStatementNode p (Block ss)) env = Some (env', is) -> same_dom env env'.
Proof.
  intros Hc. simpl in Hc.
  destruct (check_statements_with (check_statement reg) ss (start_scope env))
    as [[env1 is1]|] eqn:Hb; [|discriminate].
  injection Hc as <- _.
  assert (Hall : Forall (fun s => forall env env' is,
                   check_statement reg s env = Some (env', is) -> top_grows env env') ss).
  { apply Forall_forall. intros s _. apply check_statement_top_grows. }
  pose proof (@check_statements_with_top_grows _ _ _ _ _ Hall Hb) as Hg1.
  unfold start_scope in Hg1. destruct env1 as [|t1 r1]; simpl in Hg1; [contradiction|].
  apply Hg1.
Qed.

Lemma keys_same_dom e1 e2 : same_dom e1 e2 -> get_all_keys e1 = get_all_keys e2.
Proof.
  unfold same_dom. induction 1 as [|x y l l' Hxy _ IH]; simpl; [reflexivity|].
  unfold get_all_keys in *. simpl. rewrite Hxy, IH. reflexivity.
Qed.

Lemma get_type_keys n env : is_Some (get_type n env) <-> n ∈ get_all_keys env.
Proof.
  induction env as [|table rest IH]; simpl.
  - split; [intros [? ?]; discriminate | unfold get_all_keys; simpl; set_solver].
  - unfold get_all_keys in *. simpl. rewrite elem_of_union, elem_of_dom.
    destruct (table !! n) eqn:Ht.
    + split; [intros _; left; eauto | intros _; eauto].
    + rewrite IH. split; [tauto|]. intros [[? ?]|?]; [discriminate|assumption].
Qed.

Lemma get_type_set n id t env :
  get_type n (set id t env).1 =
  if decide (n = id) then (match get_type id env with Some _ => Some t | None => None end)
  else get_type n env.
Proof.
  induction env as [|table rest IH]; simpl; [case_decide; reflexivity|].
  destruct (table !! id) eqn:Hid.
  - simpl. case_decide as Hn.
    + subst. rewrite lookup_insert_eq. reflexivity.
    + rewrite lookup_insert_ne by congruence. reflexivity.
  - destruct (set id t rest) as [rest' found] eqn:Hs. simpl in *.
    case_decide as Hn.
    + subst. rewrite Hid. exact IH.
    + destruct (table !! n); [reflexivity | exact IH].
Qed.

Lemma merge_branches_spec pos names te ee env :
  NoDup names ->
  (forall n, n ∈ names -> is_Some (get_type n te) /\ is_Some (get_type n ee)) ->
  exists env', merge_branches pos names te ee env = Some (env', branch_warnings pos names te ee) /\
    forall m, get_type m env' =
      if decide (m ∈ names)
      then match get_type m env with Some _ => Some (merged_type te ee m) | None => None end
      else get_type m env.
Proof.
  revert env. induction names as [|n rest IH]; intros env Hnd Hvis.
  - exists env. split; [reflexivity|]. intros m. case_decide as Hm; [inversion Hm|reflexivity].
  - apply NoDup_cons in Hnd as [Hnr Hnd].
    destruct (Hvis n (list_elem_of_here n rest)) as [[t1 Ht1] [t2 Ht2]].
    assert (Hvis' : forall m, m ∈ rest -> is_Some (get_type m te) /\ is_Some (get_type m ee))
      by (intros m Hm; apply Hvis; apply list_elem_of_further; exact Hm).
    simpl. rewrite Ht1, Ht2.
    set (t := if decide (t2 = t1) then t1 else TAny).
    destruct (IH (set n t env).1 Hnd Hvis') as (env' & Hm & Hget).
    exists env'. split.
    + unfold t in *. case_decide as Heq.
      * rewrite Hm. unfold branch_warnings. rewrite filter_cons_False; [reflexivity|].
        rewrite Ht1, Ht2, Heq. tauto.
      * rewrite Hm. unfold branch_warnings. rewrite filter_cons_True; [reflexivity|].
        rewrite Ht1, Ht2. congruence.
    + intros m. rewrite Hget, get_type_set.
      destruct (decide (m = n)) as [->|Hmn].
      * rewrite (decide_False _ _ Hnr), decide_True by (apply list_elem_of_here).
        unfold merged_type. rewrite Ht1, Ht2. reflexivity.
      * destruct (decide (m ∈ rest)) as [Hin|Hnin].
        -- rewrite decide_True by (apply list_elem_of_further; exact Hin). reflexivity.
        -- rewrite decide_False; [reflexivity|].
           rewrite elem_of_cons. tauto.
Qed.

Lemma branch_warnings_spec pos names te ee :
  NoDup names ->
  NoDup (branch_warnings pos names te ee) /\
  forall i, i ∈ branch_warnings pos names te ee <->
    exists n, i = (MultipleTypesFromBranchWarning n, pos) /\ n ∈ names /\
              get_type n ee <> get_type n te.
Proof.
  intros Hnd. unfold branch_warnings. split.
  - change (NoDup ((fun n => (MultipleTypesFromBranchWarning n, pos)) <$>
                   filter (fun n => get_type n ee <> get_type n te) names)).
    apply NoDup_fmap_2; [intros a b Hab; congruence|]. apply NoDup_filter, Hnd.
  - intros i.
    change (map ?f ?l) with (f <$> l).
    rewrite list_elem_of_fmap. setoid_rewrite list_elem_of_filter. naive_solver.
Qed.

Lemma check_statement_if_then_else_eq reg p c t f env :
  check_statement reg (mkStatementNode p (IfThenElse c t f)) env =
  match check_expr reg c env with
  | None => None
  | Some r =>
      match check_condition c r with
      | inl early => Some (env, early)
      | inr issues =>
          match check_statement reg t env with
          | None => None
          | Some (then_env', is1) =>
              match check_statement reg f env with
              | None => None
              | Some (else_env', is2) =>
                  match merge_branches p (elements (get_all_keys then_env'))
                          then_env' else_env' env with
                  | None => None
                  | Some (env', is3) => Some (env', issues ++ is1 ++ is2 ++ is3)
                  end
              end
          end
      end
  end.
Proof. reflexivity. Qed.

(** X23. For [if (c) { ss1 } else { ss2 }] whose condition is not a
    void call: each branch block is checked against the incoming environment
    [env] itself (the copies), and the merge writes, for every name visible
    in [env], the branches' common type, or [Any] when they disagree; names
    not visible in [env] stay unbound. The merge issues are warnings only,
    exactly one [MultipleTypesFromBranchWarning] per disagreeing name. The
    branches being blocks matters: see the failing input of C1. *)
Theorem if_then_else_block_merge reg p c r issues pt ss1 pf ss2 env env1 is1 env2 is2 :
  check_expr reg c env = Some r ->
  check_condition c r = inr issues ->
  check_statement reg (mkStatementNode pt (Block ss1)) env = Some (env1, is1) ->
  check_statement reg (mkStatementNode pf (Block ss2)) env = Some (env2, is2) ->
  exists env' is3,
    check_statement reg
      (mkStatementNode p (IfThenElse c (mkStatementNode pt (Block ss1))
                                       (mkStatementNode pf (Block ss2)))) env
      = Some (env', issues ++ is1 ++ is2 ++ is3) /\
    (forall n, get_type n env' =
       match get_type n env with
       | Some _ => Some (merged_type env1 env2 n)
       | None => None
       end) /\
    NoDup is3 /\
    (forall i, i ∈ is3 <->
       exists n, i = (MultipleTypesFromBranchWarning n, p) /\
                 is_Some (get_type n env) /\ get_type n env2 <> get_type n env1).
Proof.
  intros Hc Hcond H1 H2.
  pose proof (@block_same_dom _ _ _ _ _ _ H1) as Hd1.
  pose proof (@block_same_dom _ _ _ _ _ _ H2) as Hd2.
  pose proof (keys_same_dom Hd1) as Hk1.
  pose proof (keys_same_dom Hd2) as Hk2.
  assert (Hvis : forall n, n ∈ elements (get_all_keys env1) ->
            is_Some (get_type n env1) /\ is_Some (get_type n env2)).
  { intros n Hn. rewrite elem_of_elements in Hn.
    rewrite !get_type_keys, <- Hk2, Hk1. tauto. }
  destruct (merge_branches_spec p env1 env2 env (NoDup_elements _) Hvis)
    as (env' & Hm & Hget).
  destruct (branch_warnings_spec p env1 env2 (NoDup_elements (get_all_keys env1)))
    as [Hnd Hin].
  exists env', (branch_warnings p (elements (get_all_keys env1)) env1 env2).
  rewrite check_statement_if_then_else_eq, Hc, Hcond, H1, H2, Hm.
  split; [reflexivity|]. split; [|split; [exact Hnd|]].
  - intros n. rewrite Hget.
    destruct (decide (n ∈ elements (get_all_keys env1))) as [Hn|Hn];
      rewrite elem_of_elements, <- Hk1, <- get_type_keys in Hn.
    + destruct Hn as [t Ht]. rewrite Ht. reflexivity.
    + destruct (get_type n env) eqn:Ht; [exfalso; apply Hn; eauto|reflexivity].
  - intros i. rewrite Hin. setoid_rewrite elem_of_elements.
    setoid_rewrite <- Hk1. setoid_rewrite <- get_type_keys. reflexivity.
Qed.

(** C1 (failing input). In [if (true) {} else let y = true;], checked in
    one empty scope, [y] is visible in the [else] copy with type [Bool],
    yet the merge neither writes it back nor warns: it walks the names of
    the [then] copy only. *)
Lemma if_else_declares_not_merged :
  check_statement no_builtins decl_y [∅] = Some ([{[ "y" := TBool ]}], []) /\
  get_type "y" [{[ "y" := TBool ]}] = Some TBool /\
  check_statement no_builtins if_else_declares [∅] = Some ([∅], []) /\
  get_type "y" [∅] = None.
Proof. vm_compute. repeat split. Qed.

(** C10 (failing input). In [if (true) let x = 1; else {}], checked in one
    empty scope, the [then] copy gains [x] but the [else] copy does not,
    so the merge's lookup of [x] in the [else] copy fails and the checker
    panics ([None]), whatever the builtin registry. *)
Theorem then_branch_declaration_panics reg :
  check_statement reg decl_x [∅] = Some ([{[ "x" := TNumber ]}], []) /\
  check_statement reg (mkStatementNode (0,0) (Block [])) [∅] = Some ([∅], []) /\
  get_type "x" [∅] = None /\
  check_statement reg if_then_declares [∅] = None.
Proof. vm_compute. repeat split. Qed.

(** C3 (failing input). When the condition of an [if] is a call of a
    void builtin [f], the checker returns the single [NoneError f] at once
    and never checks the branches, whatever they contain; e.g. in
    [if (f()) { u; }] the [ReferenceError u] that checking the block
    reports on its own is missing from the result. *)
Theorem void_condition_skips_branches reg f pc p t e env :
  reg f = Some Void ->
  check_statement reg (mkStatementNode p (IfThen (mkExprNode pc (FunctionCall f [])) t)) env
    = Some (env, [(IInterpreterError (NoneError f), pc)]) /\
  check_statement reg (mkStatementNode p (IfThenElse (mkExprNode pc (FunctionCall f [])) t e)) env
    = Some (env, [(IInterpreterError (NoneError f), pc)]) /\
  check_statement reg block_u [∅] = Some ([∅], [(IInterpreterError (ReferenceError "u"), (5,6))]).
Proof.
  intros Hf. split; [|split].
  - simpl. rewrite Hf. reflexivity.
  - rewrite check_statement_if_then_else_eq. simpl. rewrite Hf. reflexivity.
  - vm_compute. reflexivity.
Qed.

Lemma if_then_else_block_merge_witness :
  exists env' is3,
    check_statement no_builtins branch_merge_example [{[ "x" := TNumber ]}] = Some (env', is3) /\
    get_type "x" env' = Some TAny /\
    NoDup is3 /\ (MultipleTypesFromBranchWarning "x", (0,0)) ∈ is3.
Proof.
  destruct (@if_then_else_block_merge no_builtins (0,0) lit_true (inl (Some TBool)) []
              (0,0) [assign_x_true] (0,0) [] [{[ "x" := TNumber ]}]
              [{[ "x" := TBool ]}] [] [{[ "x" := TNumber ]}] []
              ltac:(vm_compute; reflexivity) ltac:(vm_compute; reflexivity)
              ltac:(vm_compute; reflexivity) ltac:(vm_compute; reflexivity))
    as (env' & is3 & Hc & Hg & Hnd & Hin).
  exists env', is3. split; [exact Hc|]. split; [|split; [exact Hnd|]].
  - rewrite Hg. reflexivity.
  - apply Hin. exists "x". split; [reflexivity|]. split; [eexists; reflexivity|discriminate].
Defined.

Lemma void_condition_skips_branches_witness :
  check_statement println_void
    (mkStatementNode (0,0) (IfThen (mkExprNode (2,11) (FunctionCall "println" [])) block_u)) [∅]
    = Some ([∅], [(IInterpreterError (NoneError "println"), (2,11))]) /\
  check_statement println_void block_u [∅]
    = Some ([∅], [(IInterpreterError (ReferenceError "u"), (5,6))]).
Proof.
  destruct (@void_condition_skips_branches println_void "println" (2,11) (0,0) block_u block_u [∅]
              eq_refl) as (Hi & _ & Hb).
  split; [exact Hi | exact Hb].
Defined.

End CheckerFacts.

(* ================================================================== *)
(** * Scope depth in the two passes *)

Module ScopeDepth.
Import DepthAux.

Lemma depth_fuel_app fuel st x i :
  parents_below st -> i < length st ->
  depth_fuel fuel (st ++ x) i = depth_fuel fuel st i.
Proof.
  intros Hwf. revert i. induction fuel as [|f IH]; intros i Hi; simpl; [reflexivity|].
  rewrite lookup_app_l by exact Hi.
  destruct (st !! i) as [sc|] eqn:Hsc; [|reflexivity].
  destruct (Eval.parent sc) as [p|] eqn:Hp; [|reflexivity].
  rewrite IH; [reflexivity|]. pose proof (Hwf _ _ _ Hsc Hp). lia.
Qed.

Lemma create_child_depth st env :
  parents_below st -> env < length st ->
  parents_below (Eval.create_child st env).1 /\
  scope_depth (Eval.create_child st env).1 (Eval.create_child st env).2 = S (scope_depth st env).
Proof.
  intros Hwf Henv. unfold Eval.create_child, scope_depth; simpl. split.
  - intros i sc p Hi Hp. destruct (decide (i < length st)) as [Hlt|Hge].
    + rewrite lookup_app_l in Hi by exact Hlt. eapply Hwf; eauto.
    + rewrite lookup_app_r in Hi by lia.
      destruct (i - length st) as [|k] eqn:Hk; simpl in Hi; [|rewrite lookup_nil in Hi; discriminate].
      injection Hi as <-. simpl in Hp. injection Hp as <-. lia.
  - rewrite length_app. simpl. rewrite Nat.add_1_r. simpl.
    rewrite lookup_app_r, Nat.sub_diag by lia. simpl.
    rewrite depth_fuel_app by assumption. f_equal.
Qed.

(** C2 (amended). The scope each pass gives to the children of a
    construct. A [Block]'s statements run one scope deeper in both
    passes. A [Loop]'s body is checked in the loop's own environment,
    but evaluated in a fresh child scope, one level deeper. An [if]'s
    branches are handled in the incoming environment by both passes: the
    checker checks [then] (in [IfThen] and [IfThenElse]) and [else] against
    the incoming [env] itself, and the evaluator runs the taken branch,
    [then] on a truthy condition and [else] on a falsy one, at the incoming
    scope index [env], with no [create_child]. *)
Theorem scopes_per_construct reg H :
  (forall p ss env,
     TypeChecker.check_statement reg (Ast.mkStatementNode p (Ast.Block ss)) env =
       match TypeChecker.check_statements_with (TypeChecker.check_statement reg) ss
               (TypeChecker.start_scope env) with
       | None => None
       | Some (env', is) => Some (TypeChecker.end_scope env', is)
       end /\
     length (TypeChecker.start_scope env) = S (length env)) /\
  (forall p b env,
     TypeChecker.check_statement reg (Ast.mkStatementNode p (Ast.Loop b)) env =
       TypeChecker.check_statement reg b env) /\
  (forall p c t env r issues,
     TypeChecker.check_expr reg c env = Some r ->
     TypeChecker.check_condition c r = inr issues ->
     TypeChecker.check_statement reg (Ast.mkStatementNode p (Ast.IfThen c t)) env =
       match TypeChecker.check_statement reg t env with
       | None => None
       | Some (env', is) => Some (env', issues ++ is)
       end) /\
  (forall p c t e env r issues,
     TypeChecker.check_expr reg c env = Some r ->
     TypeChecker.check_condition c r = inr issues ->
     TypeChecker.check_statement reg (Ast.mkStatementNode p (Ast.IfThenElse c t e)) env =
       match TypeChecker.check_statement reg t env with
       | None => None
       | Some (then_env', is1) =>
           match TypeChecker.check_statement reg e env with
           | None => None
           | Some (else_env', is2) =>
               match TypeChecker.merge_branches p
                       (elements (TypeChecker.get_all_keys then_env')) then_env' else_env' env with
               | None => None
               | Some (env', is3) => Some (env', issues ++ is1 ++ is2 ++ is3)
               end
           end
       end) /\
  (forall f st p ss env, parents_below st -> env < length st ->
     let '(st', c) := Eval.create_child st env in
     Eval.interpret_statement H (S f) st (RAst.mkStmtNode p (RAst.Block ss)) env =
       Eval.interpret_block H f st' ss c Eval.SRNone /\
     parents_below st' /\ scope_depth st' c = S (scope_depth st env)) /\
  (forall f st p b env, parents_below st -> env < length st ->
     let '(st', c) := Eval.create_child st env in
     Eval.interpret_statement H (S f) st (RAst.mkStmtNode p (RAst.Loop b)) env =
       Eval.interpret_loop H f st' b c /\
     parents_below st' /\ scope_depth st' c = S (scope_depth st env) /\
     (forall g st'', exists k, Eval.interpret_loop H (S g) st'' b c =
                               Eval.bind (Eval.interpret_statement H g st'' b c) k)) /\
  (forall f st p cond t me env st1 v,
     Eval.interpret_expr_as_value H f st cond env = Eval.ROk st1 v ->
     Eval.is_truthy H v = true ->
     Eval.interpret_statement H (S f) st (RAst.mkStmtNode p (RAst.IfThen cond t me)) env =
       Eval.bind (Eval.interpret_statement H f st1 t env)
                 (fun st r => Eval.ROk st (Eval.branch_result r))) /\
  (forall f st p cond t e env st1 v,
     Eval.interpret_expr_as_value H f st cond env = Eval.ROk st1 v ->
     Eval.is_truthy H v = false ->
     Eval.interpret_statement H (S f) st (RAst.mkStmtNode p (RAst.IfThen cond t (Some e))) env =
       Eval.bind (Eval.interpret_statement H f st1 e env)
                 (fun st r => Eval.ROk st (Eval.branch_result r))).
Proof.
  split; [|split; [|split; [|split; [|split; [|split; [|split]]]]]].
  - intros p ss env. split; reflexivity.
  - intros p b env. reflexivity.
  - intros p c t env r issues Hc Hcond. simpl. rewrite Hc, Hcond. reflexivity.
  - intros p c t e env r issues Hc Hcond. simpl. rewrite Hc, Hcond. reflexivity.
  - intros f st p ss env Hwf Henv.
    destruct (create_child_depth Hwf Henv) as [Hwf' Hd].
    unfold Eval.create_child in *. simpl in *. split; [reflexivity|split; assumption].
  - intros f st p b env Hwf Henv.
    destruct (create_child_depth Hwf Henv) as [Hwf' Hd].
    unfold Eval.create_child in *. simpl in *.
    split; [reflexivity|]. split; [assumption|]. split; [assumption|].
    intros g st''. eexists. reflexivity.
  - intros f st p cond t me env st1 v Hc Ht. simpl. rewrite Hc. simpl. rewrite Ht. reflexivity.
  - intros f st p cond t e env st1 v Hc Hf. simpl. rewrite Hc. simpl. rewrite Hf. reflexivity.
Qed.

(** C2 (counterexample). In [loop { break; }], started from one root scope
    in each pass, the checker checks [break] in an environment of two
    scopes (the block's and the root), while the evaluator runs it in a
    scope of depth three (the block's, the loop's and the root). *)
Lemma loop_break_depths :
  TypeChecker.check_statement CheckerAux.no_builtins tc_loop_break [∅] =
    match TypeChecker.check_statements_with (TypeChecker.check_statement CheckerAux.no_builtins)
            [Ast.mkStatementNode (0,0) Ast.Break] [∅; ∅] with
    | None => None
    | Some (env', is) => Some (TypeChecker.end_scope env', is)
    end /\
  length ([∅; ∅] : TypeChecker.TypeEnvironment) = 2 /\
  Eval.interpret_statement Eval.spec_value_impl 13 (Eval.new_root).1 ev_loop_break 0 =
    Eval.bind
      (Eval.interpret_block Eval.spec_value_impl 10
         [Eval.mkScope ∅ None; Eval.mkScope ∅ (Some 0); Eval.mkScope ∅ (Some 1)]
         [RAst.mkStmtNode (0,0) RAst.Break] 2 Eval.SRNone)
      (fun st result =>
         match result with
         | Eval.SRBreak => Eval.ROk st Eval.SRNone
         | Eval.SRReturn _ => Eval.ROk st result
         | _ => Eval.interpret_loop Eval.spec_value_impl 11 st
                  (RAst.mkStmtNode (0,0) (RAst.Block [RAst.mkStmtNode (0,0) RAst.Break])) 1
         end) /\
  scope_depth [Eval.mkScope ∅ None; Eval.mkScope ∅ (Some 0); Eval.mkScope ∅ (Some 1)] 2 = 3.
Proof. split; [reflexivity|split; [reflexivity|split; reflexivity]]. Qed.

Lemma root_parents_below : parents_below (Eval.new_root).1.
Proof.
  intros [|i] sc p Hi Hp; simpl in Hi.
  - injection Hi as <-. discriminate.
  - rewrite lookup_nil in Hi. discriminate.
Qed.

Lemma scopes_per_construct_witness :
  (Eval.interpret_statement Eval.spec_value_impl 1 (Eval.new_root).1 ev_loop_break 0 =
    Eval.interpret_loop Eval.spec_value_impl 0
      [Eval.mkScope ∅ None; Eval.mkScope ∅ (Some 0)]
      (RAst.mkStmtNode (0,0) (RAst.Block [RAst.mkStmtNode (0,0) RAst.Break])) 1 /\
   scope_depth [Eval.mkScope ∅ None; Eval.mkScope ∅ (Some 0)] 1 = 2) /\
  TypeChecker.check_statement CheckerAux.no_builtins
    (Ast.mkStatementNode (0,0) (Ast.IfThenElse CheckerAux.lit_true
       (Ast.mkStatementNode (0,0) (Ast.Block [])) CheckerAux.decl_y)) [∅] =
    match TypeChecker.check_statement CheckerAux.no_builtins (Ast.mkStatementNode (0,0) (Ast.Block [])) [∅] with
    | None => None
    | Some (then_env', is1) =>
        match TypeChecker.check_statement CheckerAux.no_builtins CheckerAux.decl_y [∅] with
        | None => None
        | Some (else_env', is2) =>
            match TypeChecker.merge_branches (0,0)
                    (elements (TypeChecker.get_all_keys then_env')) then_env' else_env' [∅] with
            | None => None
            | Some (env', is3) => Some (env', [] ++ is1 ++ is2 ++ is3)
            end
        end
    end /\
  Eval.interpret_statement Eval.spec_value_impl 3 (Eval.new_root).1
    (RAst.mkStmtNode (0,0) (RAst.IfThen (EvalAux.bool_lit (0,0) false)
       (RAst.mkStmtNode (0,0) RAst.Break) (Some (RAst.mkStmtNode (0,0) RAst.Empty)))) 0 =
    Eval.bind (Eval.interpret_statement Eval.spec_value_impl 2 (Eval.new_root).1
                 (RAst.mkStmtNode (0,0) RAst.Empty) 0)
              (fun st r => Eval.ROk st (Eval.branch_result r)).
Proof.
  destruct (scopes_per_construct CheckerAux.no_builtins Eval.spec_value_impl)
    as (_ & _ & _ & Hite & _ & Hloop & _ & Helse).
  split; [|split].
  - destruct (Hloop 0 (Eval.new_root).1 (0,0)
                (RAst.mkStmtNode (0,0) (RAst.Block [RAst.mkStmtNode (0,0) RAst.Break])) 0
                root_parents_below ltac:(simpl; lia)) as (He & _ & Hd & _).
    split; [exact He | exact Hd].
  - apply (Hite (0,0) CheckerAux.lit_true _ _ [∅] (inl (Some TypeChecker.TBool)) []);
      reflexivity.
  - apply (Helse 2 (Eval.new_root).1 (0,0) (EvalAux.bool_lit (0,0) false) _ _ 0
             (Eval.new_root).1 (Eval.VBool false)); reflexivity.
Defined.

End ScopeDepth.

(* ================================================================== *)
(** * Further properties of the type checker *)

Module CheckerExtras.
Import Ast TypeChecker CheckerAux CheckerFacts.

(** [check_expr] yields [Ok(None)] only for a call of a void builtin. *)
Theorem check_expr_void_only_from_call reg e env :
  check_expr reg e env = Some (inl None) ->
  exists p id args, e = mkExprNode p (FunctionCall id args) /\ reg id = Some Void.
Proof.
  destruct e as [p d]. destruct d; simpl; intros Hc;
    repeat (case_match; simplify_eq/=); simplify_eq/=; eauto.
Qed.

(** [check_expr] never panics: the [possible_type.unwrap()] of the unary
    minus case is only reached with a type, because only a call can have
    no type, and a call is reported before the unwrap. *)
Theorem check_expr_never_panics reg e env : check_expr reg e env <> None.
Proof.
  revert env.
  induction e as [p x|p id|p e1 op e2 IH1 IH2|p e1 op e2 IH1 IH2|p op e1 IH|p op e1 IH|p id args Hargs]
    using expr_ind; intros env; simpl.
  - discriminate.
  - destruct (get_type id env); discriminate.
  - specialize (IH1 env). specialize (IH2 env).
    destruct (check_expr reg e1 env) as [r1|]; [|congruence].
    destruct (check_expr reg e2 env) as [r2|]; [|congruence].
    repeat case_match; discriminate.
  - specialize (IH1 env). specialize (IH2 env).
    destruct (check_expr reg e1 env) as [r1|]; [|congruence].
    destruct (check_expr reg e2 env) as [r2|]; [|congruence].
    repeat case_match; discriminate.
  - specialize (IH env).
    destruct (check_expr reg e1 env) as [[[t|]|es]|] eqn:He; [| | |congruence].
    + destruct op. case_match; discriminate.
    + apply check_expr_void_only_from_call in He as (p' & id & args & -> & _).
      simpl. discriminate.
    + discriminate.
  - specialize (IH env).
    destruct (check_expr reg e1 env) as [r|]; [|congruence].
    repeat case_match; discriminate.
  - destruct (reg id) as [k|]; [|discriminate].
    match goal with |- context [match ?F args with _ => _ end] => set (ca := F) end.
    assert (Hca : forall l, Forall (fun e => forall env, check_expr reg e env <> None) l ->
                            ca l <> None).
    { induction 1 as [|a l Ha _ IHl]; unfold ca; simpl; [discriminate|].
      fold ca. specialize (Ha env).
      destruct (check_expr reg a env); [|congruence].
      destruct (ca l); [discriminate|congruence]. }
    specialize (Hca args Hargs). destruct (ca args) as [[|i is]|]; [| |congruence].
    + destruct k; discriminate.
    + discriminate.
Qed.

(** A binary expression that checks without issues has type [Number] or
    [Any] for an arithmetic operator, [Bool] or [Any] for an ordering, and
    [Bool] for [==]. *)
Theorem binary_expression_type reg p e1 op e2 env t :
  check_expr reg (mkExprNode p (BinaryExpression e1 op e2)) env = Some (inl (Some t)) ->
  match op with
  | Add | Sub | Mul | Div | FloorDiv => t = TNumber \/ t = TAny
  | LessThan | LessThanOrEqual | GreaterThan | GreaterThanOrEqual => t = TBool \/ t = TAny
  | StrictEquals => t = TBool
  end.
Proof.
  simpl. intros Hc.
  destruct (check_expr reg e1 env) as [r1|]; [|discriminate].
  destruct (check_expr reg e2 env) as [r2|]; [|discriminate].
  destruct (operand_type e1 r1) as [t1 is1]. destruct (operand_type e2 r2) as [t2 is2].
  destruct op; simpl in Hc;
    destruct t1, t2; simpl in Hc; repeat case_match; simplify_eq/=; auto.
Qed.

(** The operand type rules: unary minus rejects exactly [Bool]; an
    arithmetic or ordering operator rejects a pair exactly when neither
    side is [Any] and one side is [Bool], and the error names the
    operator and both types. *)
Theorem operand_type_rules :
  (forall t, (exists err, check_unary_minus_for_type t = inl err) <-> t = TBool) /\
  (forall op t1 t2 err, check_binary_arithmetic_for_types op t1 t2 = inl err ->
     err = IInterpreterError (BinaryTypeError op t1 t2)) /\
  (forall op t1 t2, (exists err, check_binary_arithmetic_for_types op t1 t2 = inl err) <->
     t1 <> TAny /\ t2 <> TAny /\ (t1 = TBool \/ t2 = TBool)) /\
  (forall op t1 t2 err, check_binary_comparison_for_types op t1 t2 = inl err ->
     err = IInterpreterError (BinaryTypeError op t1 t2)) /\
  (forall op t1 t2, (exists err, check_binary_comparison_for_types op t1 t2 = inl err) <->
     t1 <> TAny /\ t2 <> TAny /\ (t1 = TBool \/ t2 = TBool)).
Proof.
  split; [|split; [|split; [|split]]].
  - intros []; simpl; split; [intros [err Herr]; congruence | intros Ht; try discriminate; eauto
    | intros [err Herr]; congruence | intros Ht; try discriminate; eauto
    | intros [err Herr]; congruence | intros Ht; try discriminate; eauto].
  - intros op [] [] err; simpl; congruence.
  - intros op [] []; simpl; split; intros Hx;
      try (destruct Hx as [? ?]; discriminate); try (eexists; reflexivity);
      intuition congruence.
  - intros op [] [] err; simpl; congruence.
  - intros op [] []; simpl; split; intros Hx;
      try (destruct Hx as [? ?]; discriminate); try (eexists; reflexivity);
      intuition congruence.
Qed.

Lemma same_dom_length e1 e2 : same_dom e1 e2 -> length e1 = length e2.
Proof. apply Forall2_length. Qed.

(** Checking a statement keeps the number of scopes and never removes a
    visible name. *)
Theorem check_statement_keeps_scopes reg s env env' is :
  check_statement reg s env = Some (env', is) ->
  length env' = length env /\ get_all_keys env ⊆ get_all_keys env'.
Proof.
  intros Hc. pose proof (@check_statement_top_grows reg s env env' is Hc) as Hg.
  destruct env as [|t1 r1], env' as [|t2 r2]; simpl in Hg; try contradiction.
  - split; [reflexivity|set_solver].
  - destruct Hg as [Hsub Hs]. split.
    + simpl. f_equal. symmetry. apply same_dom_length, Hs.
    + unfold get_all_keys. simpl. fold (get_all_keys r1) (get_all_keys r2).
      rewrite (keys_same_dom Hs). set_solver.
Qed.

(** A [Block] neither adds nor removes a visible name: its declarations
    go into the scope it opens and drop with it. *)
Theorem block_keeps_visible_names reg p ss env env' is :
  check_statement reg (mkStatementNode p (Block ss)) env = Some (env', is) ->
  get_all_keys env' = get_all_keys env /\ length env' = length env.
Proof.
  intros Hc. pose proof (@block_same_dom _ _ _ _ _ _ Hc) as Hs.
  split; [symmetry; apply keys_same_dom, Hs | symmetry; apply same_dom_length, Hs].
Qed.

(** [check_statements] over two lists in a row is the second run in the
    environment the first leaves, with the issues in order. *)
Theorem check_statements_app reg ss1 ss2 env :
  check_statements reg (ss1 ++ ss2) env =
  match check_statements reg ss1 env with
  | None => None
  | Some (env1, is1) =>
      match check_statements reg ss2 env1 with
      | None => None
      | Some (env2, is2) => Some (env2, is1 ++ is2)
      end
  end.
Proof.
  unfold check_statements. revert env.
  induction ss1 as [|s ss1 IH]; intros env; simpl.
  - destruct (check_statements_with (check_statement reg) ss2 env) as [[? ?]|]; reflexivity.
  - destruct (check_statement reg s env) as [[env1 is1]|]; [|reflexivity].
    rewrite IH.
    destruct (check_statements_with (check_statement reg) ss1 env1) as [[env2 is2]|];
      [|reflexivity].
    destruct (check_statements_with (check_statement reg) ss2 env2) as [[env3 is3]|];
      [|reflexivity].
    rewrite app_assoc. reflexivity.
Qed.

(** [declare] binds the name in the innermost scope: afterwards the name
    has the declared type, shadowing any outer one, and every other name
    keeps its type; with no scope open it panics. *)
Theorem declare_then_get_type bt x t env :
  (env = [] -> declare (Identifier bt x) t env = None) /\
  (forall env', declare (Identifier bt x) t env = Some env' ->
     get_type x env' = Some t /\ forall n, n <> x -> get_type n env' = get_type n env).
Proof.
  split.
  - intros ->. reflexivity.
  - intros env' Hd. destruct env as [|table rest]; simpl in Hd; [discriminate|].
    injection Hd as <-. simpl. rewrite lookup_insert_eq. split; [reflexivity|].
    intros n Hn. rewrite lookup_insert_ne by congruence. reflexivity.
Qed.

Lemma set_found id t env : (set id t env).2 = true <-> is_Some (get_type id env).
Proof.
  induction env as [|table rest IH]; simpl.
  - split; [discriminate|intros [? ?]; discriminate].
  - destruct (table !! id) eqn:Hid; simpl.
    + split; [eauto|reflexivity].
    + destruct (set id t rest) as [rest' found]. simpl in *. exact IH.
Qed.

(** [set] reports whether the name is visible; if it is, the nearest
    binding now has the new type, and no other name changes; if it is
    not, the environment is left as it was. *)
Theorem set_then_get_type id t env :
  ((set id t env).2 = true <-> is_Some (get_type id env)) /\
  (is_Some (get_type id env) -> get_type id (set id t env).1 = Some t) /\
  (forall n, n <> id -> get_type n (set id t env).1 = get_type n env) /\
  (get_type id env = None -> set id t env = (env, false)).
Proof.
  split; [apply set_found|]. split; [|split].
  - intros [t0 Ht0]. rewrite get_type_set, decide_True, Ht0 by reflexivity. reflexivity.
  - intros n Hn. rewrite get_type_set, decide_False by exact Hn. reflexivity.
  - induction env as [|table rest IH]; simpl; [reflexivity|].
    destruct (table !! id) eqn:Hid; [discriminate|].
    intros Hg. rewrite (IH Hg). reflexivity.
Qed.

(** A declaration whose initializer does not check still declares the
    name, with type [Any], and reports the initializer's issues; so later
    uses of the name report no [ReferenceError]. *)
Theorem declaration_recovers_with_any reg p bt x e es table rest :
  check_expr reg e (table :: rest) = Some (inr es) ->
  check_statement reg (mkStatementNode p (VariableDeclaration (Identifier bt x) e)) (table :: rest)
    = Some (<[x := TAny]> table :: rest, es).
Proof. intros He. simpl. rewrite He. reflexivity. Qed.

(** Assigning to a name that is not visible leaves the environment
    unchanged and reports [UndeclaredAssignment] at the left-hand side,
    after the issues of the right-hand side. *)
Theorem assignment_to_undeclared reg p lp x e env r :
  get_type x env = None ->
  check_expr reg e env = Some r ->
  check_statement reg (mkStatementNode p (Assignment (mkLhsExprNode lp (LhsIdentifier x)) e)) env
    = Some (env, (operand_type e r).2 ++ [(IInterpreterError (UndeclaredAssignment x), lp)]).
Proof.
  intros Hx He. simpl. rewrite He.
  destruct (operand_type e r) as [t is] eqn:Ho. simpl.
  destruct (set_then_get_type x t env) as (_ & _ & _ & Hset).
  rewrite (Hset Hx). reflexivity.
Qed.

(** The [Display] of checker types and of binary operators never prints
    two different values the same way. *)
Theorem display_injective :
  (forall t1 t2, type_to_string t1 = type_to_string t2 -> t1 = t2) /\
  (forall o1 o2, binary_op_to_string o1 = binary_op_to_string o2 -> o1 = o2).
Proof.
  split; intros [] []; simpl; intros Heq; try reflexivity; discriminate.
Qed.

Lemma check_expr_void_only_from_call_witness :
  check_expr println_void (mkExprNode (0,0) (FunctionCall "println" [])) [∅] = Some (inl None) /\
  exists p id args, mkExprNode (0,0) (FunctionCall "println" []) = mkExprNode p (FunctionCall id args)
    /\ println_void id = Some Void.
Proof.
  assert (Hc : check_expr println_void (mkExprNode (0,0) (FunctionCall "println" [])) [∅]
                 = Some (inl None)) by reflexivity.
  split; [exact Hc|]. exact (@check_expr_void_only_from_call _ _ _ Hc).
Defined.

Lemma check_expr_never_panics_witness :
  check_expr no_builtins (mkExprNode (5,6) (EIdentifier "u")) [∅]
    = Some (inr [(IInterpreterError (ReferenceError "u"), (5,6))]) /\
  check_expr no_builtins (mkExprNode (5,6) (EIdentifier "u")) [∅] <> None.
Proof.
  split; [reflexivity|]. exact (@check_expr_never_panics _ _ _).
Defined.

Lemma binary_expression_type_witness :
  check_expr no_builtins (mkExprNode (0,0) (BinaryExpression (mkExprNode (0,0) (ELiteral (Integer 1)))
    LessThan (mkExprNode (0,0) (ELiteral (Integer 2))))) [∅] = Some (inl (Some TBool)) /\
  (TBool = TBool \/ TBool = TAny).
Proof.
  assert (Hc : check_expr no_builtins (mkExprNode (0,0) (BinaryExpression (mkExprNode (0,0) (ELiteral (Integer 1)))
    LessThan (mkExprNode (0,0) (ELiteral (Integer 2))))) [∅] = Some (inl (Some TBool))) by reflexivity.
  split; [exact Hc|]. exact (@binary_expression_type _ _ _ _ _ _ _ Hc).
Defined.

Lemma check_statement_keeps_scopes_witness :
  check_statement no_builtins decl_x [∅] = Some ([<["x" := TNumber]> ∅], []) /\
  length [<["x" := TNumber]> (∅ : gmap string Ty)] = length [∅ : gmap string Ty] /\
  get_all_keys [∅] ⊆ get_all_keys [<["x" := TNumber]> ∅].
Proof.
  assert (Hc : check_statement no_builtins decl_x [∅] = Some ([<["x" := TNumber]> ∅], []))
    by (vm_compute; reflexivity).
  split; [exact Hc|]. exact (@check_statement_keeps_scopes _ _ _ _ _ Hc).
Defined.

Lemma block_keeps_visible_names_witness :
  check_statement no_builtins (mkStatementNode (0,0) (Block [decl_x])) [∅] = Some ([∅], []) /\
  get_all_keys [∅] = get_all_keys [∅] /\ length [∅ : gmap string Ty] = length [∅ : gmap string Ty].
Proof.
  assert (Hc : check_statement no_builtins (mkStatementNode (0,0) (Block [decl_x])) [∅] = Some ([∅], []))
    by (vm_compute; reflexivity).
  split; [exact Hc|]. exact (@block_keeps_visible_names _ _ _ _ _ _ Hc).
Defined.

Lemma declaration_recovers_with_any_witness :
  check_expr no_builtins (mkExprNode (5,6) (EIdentifier "u")) [∅]
    = Some (inr [(IInterpreterError (ReferenceError "u"), (5,6))]) /\
  check_statement no_builtins
    (mkStatementNode (0,0) (VariableDeclaration (Identifier Mutable "z") (mkExprNode (5,6) (EIdentifier "u"))))
    [∅] = Some ([<["z" := TAny]> ∅], [(IInterpreterError (ReferenceError "u"), (5,6))]).
Proof.
  assert (He : check_expr no_builtins (mkExprNode (5,6) (EIdentifier "u")) [∅]
    = Some (inr [(IInterpreterError (ReferenceError "u"), (5,6))])) by reflexivity.
  split; [exact He|]. exact (@declaration_recovers_with_any _ _ _ _ _ _ _ _ He).
Defined.

Lemma assignment_to_undeclared_witness :
  get_type "x" ([∅] : TypeEnvironment) = None /\
  check_expr no_builtins lit_true [∅] = Some (inl (Some TBool)) /\
  check_statement no_builtins assign_x_true [∅]
    = Some ([∅], [(IInterpreterError (UndeclaredAssignment "x"), (0,0))]).
Proof.
  assert (Hx : get_type "x" ([∅] : TypeEnvironment) = None) by reflexivity.
  assert (He : check_expr no_builtins lit_true [∅] = Some (inl (Some TBool))) by reflexivity.
  split; [exact Hx|]. split; [exact He|].
  exact (@assignment_to_undeclared no_builtins (0,0) (0,0) "x" lit_true [∅] _ Hx He).
Defined.

Lemma declare_then_get_type_witness :
  declare (Identifier Mutable "x") TNumber [] = None /\
  declare (Identifier Mutable "x") TNumber [∅] = Some [<["x" := TNumber]> ∅] /\
  get_type "x" [<["x" := TNumber]> (∅ : gmap string Ty)] = Some TNumber.
Proof.
  destruct (@declare_then_get_type Mutable "x" TNumber [∅]) as [_ Hd].
  destruct (@declare_then_get_type Mutable "x" TNumber []) as [He _].
  assert (Hc : declare (Identifier Mutable "x") TNumber [∅] = Some [<["x" := TNumber]> ∅]) by reflexivity.
  split; [exact (He eq_refl)|]. split; [exact Hc|]. exact (proj1 (Hd _ Hc)).
Defined.

End CheckerExtras.

(* ================================================================== *)
(** * Further properties of [src/ast_walk_interpreter.rs] and
    [src/operations.rs] *)

Module EvalExtras.
Import RAst Eval EvalAux EvalFacts.

Lemma bind_no_panic {E A B} (m : Res E A) (k : Store -> A -> Res E B) :
  m <> RPanic -> (forall st a, m = ROk st a -> k st a <> RPanic) -> bind m k <> RPanic.
Proof. destruct m; simpl; try discriminate; eauto. Qed.

Section NoPanic.
Variable H : ValueImpl.

Lemma no_panic_mutual n :
  (forall st s env, interpret_statement H n st s env <> RPanic) /\
  (forall st ss env lr, interpret_block H n st ss env lr <> RPanic) /\
  (forall st b env, interpret_loop H n st b env <> RPanic) /\
  (forall st e env, interpret_expr_as_value H n st e env <> RPanic) /\
  (forall st es env, interpret_values H n st es env <> RPanic) /\
  (forall st e env, interpret_expr H n st e env <> RPanic) /\
  (forall st fn args, call_func H n st fn args <> RPanic).
Proof.
  induction n as [|n IH].
  { repeat split; intros; destruct_or?; simpl; discriminate. }
  destruct IH as (Hs & Hb & Hl & Hv & Hvs & He & Hc).
  repeat split.
  - intros st [p d] env; simpl.
    destruct d; repeat first
      [ discriminate
      | solve [eauto]
      | apply bind_no_panic; [solve [eauto] | intros ?st ?a ?Hm]
      | case_match ].
  - intros st ss env lr; simpl.
    repeat first
      [ discriminate
      | solve [eauto]
      | apply bind_no_panic; [solve [eauto] | intros ?st ?a ?Hm]
      | case_match ].
  - intros st b env; simpl.
    repeat first
      [ discriminate
      | solve [eauto]
      | apply bind_no_panic; [solve [eauto] | intros ?st ?a ?Hm]
      | case_match ].
  - intros st e env; simpl.
    apply bind_no_panic; [solve [eauto] | intros st1 r Hm].
    destruct r as [v|]; [discriminate|].
    destruct (interpret_expr_void_is_call _ _ _ _ _ Hm) as (f & args & ->).
    case_match; discriminate.
  - intros st es env; simpl.
    repeat first
      [ discriminate
      | solve [eauto]
      | apply bind_no_panic; [solve [eauto] | intros ?st ?a ?Hm]
      | case_match ].
  - intros st [p d] env; simpl.
    destruct d; repeat first
      [ discriminate
      | solve [eauto]
      | apply bind_no_panic; [solve [eauto] | intros ?st ?a ?Hm]
      | case_match
      | match goal with Heq : _ = RPanic |- _ =>
          exfalso; first [exact (Hs _ _ _ Heq) | exact (Hc _ _ _ Heq)] end ].
  - intros st fn args; simpl.
    repeat first
      [ discriminate
      | solve [eauto]
      | case_match
      | match goal with Heq : _ = RPanic |- _ =>
          exfalso; first [exact (Hs _ _ _ Heq) | exact (Hc _ _ _ Heq)] end ].
Qed.

End NoPanic.

(** The evaluator never panics: the [unreachable!()] of
    [interpret_expr_as_value] is not reached by any program, so running
    a statement sequence, evaluating an expression at a value-required
    site or calling a function ends in a result, a runtime error, or
    (in the model only) exhausted fuel. *)
Theorem evaluation_never_panics H :
  (forall fuel st ss env lr, interpret_statements H fuel st ss env lr <> RPanic) /\
  (forall fuel st e env, interpret_expr_as_value H fuel st e env <> RPanic) /\
  (forall fuel st fn args, call_func H fuel st fn args <> RPanic).
Proof.
  split; [|split].
  - intros fuel st ss. revert st. induction ss as [|s ss IH]; intros st env lr; simpl; [discriminate|].
    apply bind_no_panic; [apply (no_panic_mutual H fuel)|]. intros st1 r _. apply IH.
  - intros fuel. apply (no_panic_mutual H fuel).
  - intros fuel. apply (no_panic_mutual H fuel).
Qed.

Lemma interpret_loop_result H n st b env st' r :
  interpret_loop H n st b env = ROk st' r -> r = SRNone \/ exists v, r = SRReturn v.
Proof.
  revert st. induction n as [|n IH]; intros st; simpl; [discriminate|].
  intros Hr. apply bind_ROk_inv in Hr. destruct Hr as (st1 & r1 & _ & Hr).
  destruct r1; try (injection Hr as _ <-; eauto); eauto.
Qed.

(** A [loop] statement completes with [None] (after a [break] of its
    body) or with its body's [Return]; it never completes with [Break]
    or a value.  An [if] statement completes with [None], [Break] or
    [Return], never with a value, whatever its branches yield. *)
Theorem loop_and_if_results H fuel st env p st' r :
  (forall b, interpret_statement H fuel st (mkStmtNode p (Loop b)) env = ROk st' r ->
     r = SRNone \/ exists v, r = SRReturn v) /\
  (forall c t me, interpret_statement H fuel st (mkStmtNode p (IfThen c t me)) env = ROk st' r ->
     r = SRNone \/ r = SRBreak \/ exists v, r = SRReturn v).
Proof.
  split.
  - intros b. destruct fuel as [|fuel]; simpl; [discriminate|]. apply interpret_loop_result.
  - intros c t me. destruct fuel as [|fuel]; simpl; [discriminate|].
    intros Hr. apply bind_ROk_inv in Hr. destruct Hr as (st1 & v & _ & Hr).
    assert (Hbr : forall r0, r = branch_result r0 -> r = SRNone \/ r = SRBreak \/ exists v, r = SRReturn v).
    { intros r0 ->. destruct r0; simpl; eauto. }
    destruct (is_truthy H v); [|destruct me as [eb|]].
    + apply bind_ROk_inv in Hr. destruct Hr as (st2 & r2 & _ & Hr). injection Hr as _ <-. eauto.
    + apply bind_ROk_inv in Hr. destruct Hr as (st2 & r2 & _ & Hr). injection Hr as _ <-. eauto.
    + injection Hr as _ <-. eauto.
Qed.

Lemma interpret_values_length H n st es env st' vs :
  interpret_values H n st es env = ROk st' vs -> length vs = length es.
Proof.
  revert st es st' vs. induction n as [|n IH]; intros st [|e es] st' vs; simpl; try discriminate.
  - intros Hr. injection Hr as _ <-. reflexivity.
  - intros Hr. apply bind_ROk_inv in Hr. destruct Hr as (st1 & v & _ & Hr).
    apply bind_ROk_inv in Hr. destruct Hr as (st2 & vs' & Hvs & Hr).
    injection Hr as _ <-. simpl. f_equal. eauto.
Qed.

(** A tuple expression that evaluates yields a [Tuple] with exactly one
    element per element expression. *)
Theorem tuple_arity H fuel st p es env st' r :
  interpret_expr H fuel st (mkExprNode p (ETuple es)) env = ROk st' r ->
  exists vs, r = Some (VTuple vs) /\ length vs = length es.
Proof.
  destruct fuel as [|fuel]; simpl; [discriminate|].
  intros Hr. apply bind_ROk_inv in Hr. destruct Hr as (st1 & vs & Hvs & Hr).
  injection Hr as _ <-. exists vs. split; [reflexivity|]. eapply interpret_values_length; eauto.
Qed.

(** Calling a value that is not a function fails with
    [CallToNonFunction] at the callee's position, naming the callee when
    it is an identifier and carrying the value's type; the arguments are
    not evaluated, so an argument that would fail does not change the
    error. *)
Theorem call_non_function_before_args H fuel st env p callee args st1 v :
  interpret_expr_as_value H fuel st callee env = ROk st1 v ->
  (forall fn, v <> VFunction fn) ->
  interpret_expr H (S fuel) st (mkExprNode p (FnCall callee args)) env =
    RErr (CallToNonFunction (match edata callee with EIdentifier id => Some id | _ => None end)
            (get_type v), epos callee).
Proof.
  intros Hv Hnf. simpl. rewrite Hv. simpl.
  destruct v as [| | | |fn]; [..|exfalso; exact (Hnf fn eq_refl)];
    destruct (edata callee); reflexivity.
Qed.

(** Once both operands evaluate, [==] never fails and yields the [Bool]
    of value equality, [not] never fails and yields the [Bool] of its
    operand's falsiness, and [-], [*], [/], [<], [<=], [>], [>=] fail
    with [BinaryTypeError] at the binary expression's position, naming
    the operator and both value types, unless both operands are
    numbers. *)
Theorem operator_expression_outcomes H fuel st env p e1 e2 st1 v1 st2 v2 :
  interpret_expr_as_value H fuel st e1 env = ROk st1 v1 ->
  interpret_expr_as_value H fuel st1 e2 env = ROk st2 v2 ->
  interpret_expr H (S fuel) st (mkExprNode p (Binary e1 Eq e2)) env
    = ROk st2 (Some (VBool (value_eqb H v1 v2))) /\
  interpret_expr H (S fuel) st (mkExprNode p (UnaryLogical Not e1)) env
    = ROk st1 (Some (VBool (negb (is_truthy H v1)))) /\
  (forall op, op <> Add -> op <> Eq -> (forall x y, v1 = VNumber x -> v2 = VNumber y -> False) ->
     interpret_expr H (S fuel) st (mkExprNode p (Binary e1 op e2)) env
       = RErr (BinaryTypeError op (get_type v1) (get_type v2), p)).
Proof.
  intros H1 H2. split; [|split].
  - simpl. rewrite H1. simpl. rewrite H2. reflexivity.
  - simpl. rewrite H1. reflexivity.
  - intros op Hadd Heq Hnum. simpl. rewrite H1. simpl. rewrite H2. simpl.
    assert (Hnn : match v1, v2 with VNumber _, VNumber _ => False | _, _ => True end).
    { destruct v1, v2; eauto. }
    destruct op; try congruence;
      destruct v1, v2; try contradiction; reflexivity.
Qed.

(** In [operations.rs], subtraction, multiplication and division yield a
    [Number] and the four orderings a [Bool] exactly when both operands
    are numbers; otherwise each fails with [BinaryTypeError] naming its
    operator and both operand types.  Unary minus yields a [Number] on a
    number and fails with [UnaryTypeError] on anything else. *)
Theorem number_operations H a b :
  (forall op f, In (op, f) [(Sub, subtract H); (Mul, multiply H); (Div, divide H)] ->
     match a, b with
     | VNumber _, VNumber _ => exists n, f a b = Ok (VNumber n)
     | _, _ => f a b = Err (BinaryTypeError op (get_type a) (get_type b))
     end) /\
  (forall op f, In (op, f) [(Lt, less_than H); (Lte, less_than_or_equal H);
                            (Gt, greater_than H); (Gte, greater_than_or_equal H)] ->
     match a, b with
     | VNumber _, VNumber _ => exists c, f a b = Ok (VBool c)
     | _, _ => f a b = Err (BinaryTypeError op (get_type a) (get_type b))
     end) /\
  match a with
  | VNumber _ => exists n, unary_minus H a = Ok (VNumber n)
  | _ => unary_minus H a = Err (UnaryTypeError Neg (get_type a))
  end.
Proof.
  split; [|split].
  - intros op f Hin. simpl in Hin.
    destruct Hin as [Hin|[Hin|[Hin|[]]]]; injection Hin as <- <-;
      destruct a, b; simpl; eauto.
  - intros op f Hin. simpl in Hin.
    destruct Hin as [Hin|[Hin|[Hin|[Hin|[]]]]]; injection Hin as <- <-;
      destruct a, b; simpl; eauto.
  - destruct a; simpl; eauto.
Qed.

(** The top-level statement sequence runs every statement in order, also
    after one that completes with [Break] or [Return]; the sequence of
    two programs runs the second from the arena and result the first
    leaves; the result is [None] only for an empty sequence. *)
Theorem program_sequencing H fuel st env :
  (forall s rest lr st1 r, interpret_statement H fuel st s env = ROk st1 r ->
     interpret_statements H fuel st (s :: rest) env lr = interpret_statements H fuel st1 rest env (Some r)) /\
  (forall ss1 ss2 lr, interpret_statements H fuel st (ss1 ++ ss2) env lr =
     bind (interpret_statements H fuel st ss1 env lr)
          (fun st1 r => interpret_statements H fuel st1 ss2 env r)) /\
  (forall ss st', interpret_statements H fuel st ss env None = ROk st' None -> ss = [] /\ st' = st).
Proof.
  split; [|split].
  - intros s rest lr st1 r Hs. simpl. rewrite Hs. reflexivity.
  - intros ss1. revert st. induction ss1 as [|s ss1 IH]; intros st ss2 lr; simpl; [reflexivity|].
    destruct (interpret_statement H fuel st s env); simpl; auto.
  - intros ss st'. destruct ss as [|s ss]; simpl.
    + intros Hr. injection Hr as <-. auto.
    + intros Hr. exfalso. apply bind_ROk_inv in Hr. destruct Hr as (st1 & r & _ & Hr).
      revert st1 r Hr. induction ss as [|s' ss IH]; intros st1 r; simpl; [discriminate|].
      intros Hr. apply bind_ROk_inv in Hr. destruct Hr as (st2 & r2 & _ & Hr). eauto.
Qed.

Lemma env_declare_length st i x v : length (env_declare st i x v) = length st.
Proof. unfold env_declare. destruct (st !! i); [apply length_insert|reflexivity]. Qed.

Lemma env_get_declare st i x v :
  i < length st -> env_get (env_declare st i x v) i x = Some v.
Proof.
  intros Hi. unfold env_get. rewrite env_declare_length.
  destruct (lookup_lt_is_Some_2 st i Hi) as [sc Hsc].
  destruct (length st) as [|n] eqn:Hn; [lia|]. simpl.
  unfold env_declare. rewrite Hsc, list_lookup_insert_eq by lia. simpl.
  rewrite lookup_insert_eq. reflexivity.
Qed.

Lemma env_set_fuel_length n st i x v : length (env_set_fuel n st i x v).1 = length st.
Proof.
  revert i. induction n as [|n IH]; intros i; simpl; [reflexivity|].
  destruct (st !! i) as [sc|]; [|reflexivity].
  destruct (vars sc !! x); [apply length_insert|].
  destruct (parent sc); [apply IH|reflexivity].
Qed.

Lemma env_set_fuel_none n st i x v :
  env_get_fuel n st i x = None -> env_set_fuel n st i x v = (st, false).
Proof.
  revert i. induction n as [|n IH]; intros i; simpl; [reflexivity|].
  destruct (st !! i) as [sc|]; [|reflexivity].
  destruct (vars sc !! x); [discriminate|].
  destruct (parent sc); [apply IH|reflexivity].
Qed.

Lemma env_set_fuel_some n st i x v :
  is_Some (env_get_fuel n st i x) -> (env_set_fuel n st i x v).2 = true.
Proof.
  revert i. induction n as [|n IH]; intros i; simpl; [intros [? ?]; discriminate|].
  destruct (st !! i) as [sc|]; [|intros [? ?]; discriminate].
  destruct (vars sc !! x); [reflexivity|].
  destruct (parent sc); [apply IH|intros [? ?]; discriminate].
Qed.

Lemma env_set_fuel_other n st i x v st' b k sc :
  env_set_fuel n st i x v = (st', b) -> st !! k = Some sc -> vars sc !! x = None ->
  st' !! k = Some sc.
Proof.
  revert i. induction n as [|n IH]; intros i; simpl.
  - intros Hs. injection Hs as <- _. auto.
  - destruct (st !! i) as [sci|] eqn:Hi; [|intros Hs; injection Hs as <- _; auto].
    destruct (vars sci !! x) eqn:Hx.
    + intros Hs Hk Hn. injection Hs as <- _.
      rewrite list_lookup_insert_ne; [exact Hk|]. intros <-. congruence.
    + destruct (parent sci); [eauto|]. intros Hs. injection Hs as <- _. auto.
Qed.

Lemma env_set_fuel_found n st i x v st' :
  env_set_fuel n st i x v = (st', true) -> env_get_fuel n st' i x = Some v.
Proof.
  revert i st'. induction n as [|n IH]; intros i st'; simpl; [discriminate|].
  destruct (st !! i) as [sc|] eqn:Hi; [|discriminate].
  destruct (vars sc !! x) eqn:Hx.
  - intros Hs. injection Hs as <-.
    rewrite list_lookup_insert_eq by (eapply lookup_lt_Some; eauto). simpl.
    rewrite lookup_insert_eq. reflexivity.
  - destruct (parent sc) as [q|] eqn:Hq; [|discriminate]. intros Hs.
    rewrite (@env_set_fuel_other _ _ _ _ _ _ _ _ _ Hs Hi Hx), Hx, Hq. eauto.
Qed.

(** A declaration binds the name in the current scope to the value of
    its initializer, so that the name then reads back as that value
    (shadowing any outer binding).  An assignment to a visible name
    rebinds its nearest binding, which then reads back as the assigned
    value; an assignment to a name that is not visible fails with
    [UndeclaredAssignment] at the left-hand side's position, after the
    right-hand side has been evaluated. *)
Theorem declaration_and_assignment H fuel st env p e st1 v x :
  interpret_expr_as_value H fuel st e env = ROk st1 v ->
  (forall bt, env < length st1 -> exists st2,
     interpret_statement H (S fuel) st (mkStmtNode p (VarDecl (Ast.Identifier bt x) e)) env
       = ROk st2 SRNone /\ env_get st2 env x = Some v) /\
  (forall lp, is_Some (env_get st1 env x) -> exists st2,
     interpret_statement H (S fuel) st
       (mkStmtNode p (Assign (Ast.mkLhsExprNode lp (Ast.LhsIdentifier x)) e)) env
       = ROk st2 SRNone /\ env_get st2 env x = Some v) /\
  (forall lp, env_get st1 env x = None ->
     interpret_statement H (S fuel) st
       (mkStmtNode p (Assign (Ast.mkLhsExprNode lp (Ast.LhsIdentifier x)) e)) env
       = RErr (UndeclaredAssignment x, lp)).
Proof.
  intros He. split; [|split].
  - intros bt Hlt. eexists. simpl. rewrite He. simpl. split; [reflexivity|].
    apply env_get_declare. exact Hlt.
  - intros lp Hvis. simpl. rewrite He. simpl. unfold env_set, env_get in *.
    pose proof (env_set_fuel_some (length st1) st1 env x v Hvis) as Hb.
    pose proof (env_set_fuel_length (length st1) st1 env x v) as Hl.
    destruct (env_set_fuel (length st1) st1 env x v) as [st2 b] eqn:Hs. simpl in Hb, Hl. subst b.
    exists st2. split; [reflexivity|]. rewrite Hl. exact (@env_set_fuel_found _ _ _ _ _ _ Hs).
  - intros lp Hnone. simpl. rewrite He. simpl. unfold env_set.
    rewrite (env_set_fuel_none _ _ _ _ v Hnone). reflexivity.
Qed.

(** A function definition yields a [Function] value whose call
    signature has one parameter per declared parameter, is not variadic
    and keeps the declared parameter constraints, and whose captured
    environment is the defining scope; a named definition also binds its
    name in that scope (so the body can call it by name), an anonymous
    one leaves the arena unchanged. *)
Theorem fn_def_value H fuel st env p maybe_id params body rt st' r :
  interpret_expr H fuel st (mkExprNode p (FnDef maybe_id params body rt)) env = ROk st' r ->
  exists fn, r = Some (VFunction fn) /\
    get_call_sign fn = mkCallSign (length params) false (map snd params) /\
    fn = User rt (get_call_sign fn) (map fst params) body env /\
    match maybe_id with
    | Some id => env < length st -> env_get st' env id = Some (VFunction fn)
    | None => st' = st
    end.
Proof.
  destruct fuel as [|fuel]; simpl; [discriminate|].
  destruct maybe_id as [id|]; intros Hr; injection Hr as <- <-; eexists; repeat split.
  intros Hlt. apply env_get_declare. exact Hlt.
Qed.

Lemma tuple_arity_witness :
  interpret_expr spec_value_impl 6 [mkScope ∅ None]
    (mkExprNode (0,0) (ETuple [int_lit (0,0) 10; int_lit (0,0) 20])) 0
    = ROk [mkScope ∅ None] (Some (VTuple [VNumber (NInteger 10); VNumber (NInteger 20)])) /\
  exists vs, Some (VTuple [VNumber (NInteger 10); VNumber (NInteger 20)]) = Some (VTuple vs)
    /\ length vs = 2.
Proof.
  assert (Hr : interpret_expr spec_value_impl 6 [mkScope ∅ None]
    (mkExprNode (0,0) (ETuple [int_lit (0,0) 10; int_lit (0,0) 20])) 0
    = ROk [mkScope ∅ None] (Some (VTuple [VNumber (NInteger 10); VNumber (NInteger 20)])))
    by reflexivity.
  split; [exact Hr|]. exact (@tuple_arity _ _ _ _ _ _ _ _ Hr).
Defined.

Lemma call_non_function_before_args_witness :
  interpret_expr_as_value spec_value_impl 2 [mkScope ∅ None] (int_lit (0,4) 7) 0
    = ROk [mkScope ∅ None] (VNumber (NInteger 7)) /\
  interpret_expr spec_value_impl 3 [mkScope ∅ None]
    (mkExprNode (0,9) (FnCall (int_lit (0,4) 7) [undefined_fn_call (0,6)])) 0
    = RErr (CallToNonFunction None TyNumber, (0,4)).
Proof.
  assert (Hv : interpret_expr_as_value spec_value_impl 2 [mkScope ∅ None] (int_lit (0,4) 7) 0
    = ROk [mkScope ∅ None] (VNumber (NInteger 7))) by reflexivity.
  split; [exact Hv|].
  exact (@call_non_function_before_args _ _ _ _ (0,9) _ [undefined_fn_call (0,6)] _ _ Hv
           (fun fn Hfn => ltac:(discriminate Hfn))).
Defined.

Lemma operator_expression_outcomes_witness :
  interpret_expr_as_value spec_value_impl 2 [mkScope ∅ None] (int_lit (0,0) 1) 0
    = ROk [mkScope ∅ None] (VNumber (NInteger 1)) /\
  interpret_expr_as_value spec_value_impl 2 [mkScope ∅ None] (bool_lit (0,0) true) 0
    = ROk [mkScope ∅ None] (VBool true) /\
  interpret_expr spec_value_impl 3 [mkScope ∅ None]
    (mkExprNode (1,5) (Binary (int_lit (0,0) 1) Eq (bool_lit (0,0) true))) 0
    = ROk [mkScope ∅ None] (Some (VBool false)) /\
  interpret_expr spec_value_impl 3 [mkScope ∅ None]
    (mkExprNode (1,5) (Binary (int_lit (0,0) 1) Sub (bool_lit (0,0) true))) 0
    = RErr (BinaryTypeError Sub TyNumber TyBool, (1,5)).
Proof.
  assert (H1 : interpret_expr_as_value spec_value_impl 2 [mkScope ∅ None] (int_lit (0,0) 1) 0
    = ROk [mkScope ∅ None] (VNumber (NInteger 1))) by reflexivity.
  assert (H2 : interpret_expr_as_value spec_value_impl 2 [mkScope ∅ None] (bool_lit (0,0) true) 0
    = ROk [mkScope ∅ None] (VBool true)) by reflexivity.
  destruct (@operator_expression_outcomes _ _ _ _ (1,5) _ _ _ _ _ _ H1 H2) as (Heq & _ & Hops).
  split; [exact H1|]. split; [exact H2|]. split; [exact Heq|].
  apply Hops; [discriminate|discriminate|intros x y _ Hy; discriminate].
Defined.

Lemma declaration_and_assignment_witness :
  interpret_expr_as_value spec_value_impl 2 [mkScope ∅ None] (int_lit (0,0) 5) 0
    = ROk [mkScope ∅ None] (VNumber (NInteger 5)) /\
  (exists st2, interpret_statement spec_value_impl 3 [mkScope ∅ None]
     (mkStmtNode (0,0) (VarDecl (Ast.Identifier Ast.Mutable "x") (int_lit (0,0) 5))) 0
     = ROk st2 SRNone /\ env_get st2 0 "x" = Some (VNumber (NInteger 5))) /\
  interpret_statement spec_value_impl 3 [mkScope ∅ None]
    (mkStmtNode (0,0) (Assign (Ast.mkLhsExprNode (0,1) (Ast.LhsIdentifier "x")) (int_lit (0,0) 5))) 0
    = RErr (UndeclaredAssignment "x", (0,1)).
Proof.
  assert (He : interpret_expr_as_value spec_value_impl 2 [mkScope ∅ None] (int_lit (0,0) 5) 0
    = ROk [mkScope ∅ None] (VNumber (NInteger 5))) by reflexivity.
  destruct (@declaration_and_assignment _ _ _ _ (0,0) _ _ _ "x" He) as (Hd & _ & Hu).
  split; [exact He|]. split.
  - apply Hd. simpl. lia.
  - apply Hu. reflexivity.
Defined.

Lemma fn_def_value_witness :
  interpret_expr spec_value_impl 1 [mkScope ∅ None]
    (mkExprNode (0,0) (FnDef (Some "f") [] (mkStmtNode (0,0) (Block [])) None)) 0
    = ROk (env_declare [mkScope ∅ None] 0 "f"
             (VFunction (User None (mkCallSign 0 false []) [] (mkStmtNode (0,0) (Block [])) 0)))
          (Some (VFunction (User None (mkCallSign 0 false []) [] (mkStmtNode (0,0) (Block [])) 0))) /\
  exists fn, Some (VFunction (User None (mkCallSign 0 false []) [] (mkStmtNode (0,0) (Block [])) 0))
      = Some (VFunction fn) /\
    get_call_sign fn = mkCallSign 0 false [] /\
    fn = User None (get_call_sign fn) [] (mkStmtNode (0,0) (Block [])) 0 /\
    (0 < 1 -> env_get (env_declare [mkScope ∅ None] 0 "f"
             (VFunction (User None (mkCallSign 0 false []) [] (mkStmtNode (0,0) (Block [])) 0))) 0 "f"
             = Some (VFunction fn)).
Proof.
  assert (Hr : interpret_expr spec_value_impl 1 [mkScope ∅ None]
    (mkExprNode (0,0) (FnDef (Some "f") [] (mkStmtNode (0,0) (Block [])) None)) 0
    = ROk (env_declare [mkScope ∅ None] 0 "f"
             (VFunction (User None (mkCallSign 0 false []) [] (mkStmtNode (0,0) (Block [])) 0)))
          (Some (VFunction (User None (mkCallSign 0 false []) [] (mkStmtNode (0,0) (Block [])) 0))))
    by reflexivity.
  split; [exact Hr|]. exact (@fn_def_value _ _ _ _ _ _ _ _ _ _ _ Hr).
Defined.

Section ScopesKept.

Lemma kept_refl st P : scopes_kept st st P.
Proof. split; [lia|]. intros k sc Hk. exists sc. repeat split; auto. Qed.

Lemma kept_trans a b c P Q :
  scopes_kept a b P -> scopes_kept b c Q -> scopes_kept a c (fun k => P k \/ Q k).
Proof.
  intros [Hl1 H1] [Hl2 H2]. split; [lia|]. intros k sc Hk.
  destruct (H1 k sc Hk) as (sc1 & Hk1 & Hp1 & Hs1 & He1).
  destruct (H2 k sc1 Hk1) as (sc2 & Hk2 & Hp2 & Hs2 & He2).
  exists sc2. split; [exact Hk2|]. split; [congruence|]. split; [set_solver|].
  intros Hn. rewrite He2, He1; tauto.
Qed.

Lemma kept_weaken a b P Q :
  scopes_kept a b P -> (forall k, k < length a -> P k -> Q k) -> scopes_kept a b Q.
Proof.
  intros [Hl H1] HPQ. split; [exact Hl|]. intros k sc Hk.
  destruct (H1 k sc Hk) as (sc1 & Hk1 & Hp1 & Hs1 & He1).
  exists sc1. repeat split; auto. intros Hn. apply He1. intros HP.
  apply Hn, HPQ; [eapply lookup_lt_Some; eauto|exact HP].
Qed.

Lemma kept_at_trans a b c i :
  scopes_kept a b (fun k => k = i) -> scopes_kept b c (fun k => k = i) ->
  scopes_kept a c (fun k => k = i).
Proof. intros H1 H2. eapply kept_weaken; [eapply kept_trans; eauto|]. simpl. tauto. Qed.

Lemma kept_none_at a b i : scopes_kept a b (fun _ => False) -> scopes_kept a b (fun k => k = i).
Proof. intros Hk. eapply kept_weaken; [exact Hk|]. intros k _ []. Qed.

Lemma kept_child st sc st' Q :
  scopes_kept (st ++ [sc]) st' (fun k => k = length st) -> scopes_kept st st' Q.
Proof.
  intros Hk. assert (H0 : scopes_kept st (st ++ [sc]) (fun _ => False)).
  { split; [rewrite length_app; simpl; lia|]. intros k sc0 Hk0. exists sc0.
    rewrite lookup_app_l by (eapply lookup_lt_Some; eauto). repeat split; auto. }
  eapply kept_weaken; [exact (kept_trans H0 Hk)|]. simpl. intros k Hlt [[]|Heq]. lia.
Qed.

Lemma kept_declare st i x v : scopes_kept st (env_declare st i x v) (fun k => k = i).
Proof.
  split; [rewrite env_declare_length; lia|]. intros k sc Hk. unfold env_declare.
  destruct (st !! i) as [sci|] eqn:Hi; [|exists sc; repeat split; auto].
  destruct (decide (k = i)) as [->|Hne].
  - rewrite list_lookup_insert_eq by (eapply lookup_lt_Some; eauto).
    rewrite Hi in Hk. injection Hk as <-. eexists. split; [reflexivity|]. simpl.
    rewrite dom_insert_L. repeat split; [set_solver|]. intros []. reflexivity.
  - rewrite list_lookup_insert_ne by congruence. exists sc. repeat split; auto.
Qed.

Lemma kept_set_fuel n st i x v : scopes_kept st (env_set_fuel n st i x v).1 (fun _ => False).
Proof.
  revert i. induction n as [|n IH]; intros i; simpl; [apply kept_refl|].
  destruct (st !! i) as [sci|] eqn:Hi; [|apply kept_refl].
  destruct (vars sci !! x) as [w|] eqn:Hx.
  - simpl. split; [rewrite length_insert; lia|]. intros k sc Hk.
    destruct (decide (k = i)) as [->|Hne].
    + rewrite list_lookup_insert_eq by (eapply lookup_lt_Some; eauto).
      rewrite Hi in Hk. injection Hk as <-. eexists. split; [reflexivity|]. simpl.
      rewrite dom_insert_lookup_L by eauto. repeat split; auto.
    + rewrite list_lookup_insert_ne by congruence. exists sc. repeat split; auto.
  - destruct (parent sci); [apply IH|apply kept_refl].
Qed.

Lemma kept_set st i x v st' b :
  env_set st i x v = (st', b) -> scopes_kept st st' (fun k => k = i).
Proof.
  unfold env_set. intros Hs. apply kept_none_at.
  pose proof (kept_set_fuel (length st) st i x v) as Hk. rewrite Hs in Hk. exact Hk.
Qed.

Lemma kept_declare_params st i names args :
  scopes_kept st (declare_params st i names args) (fun k => k = i).
Proof.
  revert st args. induction names as [|n ns IH]; intros st [|a as_]; simpl; try apply kept_refl.
  eapply kept_at_trans; [apply kept_declare|apply IH].
Qed.

End ScopesKept.

Create HintDb kept.

Local Ltac kept_inv :=
  repeat match goal with
  | Hr : bind ?m _ = ROk _ _ |- _ =>
      apply bind_ROk_inv in Hr; destruct Hr as (?st & ?a & ?Hm & Hr)
  | Hr : match ?x with _ => _ end = ROk _ _ |- _ => destruct x eqn:?
  | Hr : (if ?x then _ else _) = ROk _ _ |- _ => destruct x eqn:?
  | Hr : ROk _ _ = ROk _ _ |- _ => injection Hr as <- <-
  | Hr : RErr _ = ROk _ _ |- _ => discriminate Hr
  | Hr : RPanic = ROk _ _ |- _ => discriminate Hr
  | Hr : RFuel = ROk _ _ |- _ => discriminate Hr
  end.
Local Hint Resolve kept_refl kept_declare kept_set kept_none_at : kept.
Local Hint Extern 2 (scopes_kept ?a ?c (fun k => k = ?i)) =>
  match goal with K : scopes_kept a ?b (fun k => k = i) |- _ =>
    apply (kept_at_trans K); clear K end : kept.
Local Ltac kept_close Hs Hb Hl Hv Hvs He Hc :=
  repeat match goal with
  | Hm : interpret_statement _ _ (?st ++ [?sc]) _ (length ?st) = ROk _ _ |- _ =>
      apply Hs in Hm; eapply (kept_child st sc) in Hm
  | Hm : interpret_block _ _ (?st ++ [?sc]) _ (length ?st) _ = ROk _ _ |- _ =>
      apply Hb in Hm; eapply (kept_child st sc) in Hm
  | Hm : interpret_loop _ _ (?st ++ [?sc]) _ (length ?st) = ROk _ _ |- _ =>
      apply Hl in Hm; eapply (kept_child st sc) in Hm
  | Hm : interpret_statement _ _ _ _ _ = ROk _ _ |- _ => apply Hs in Hm
  | Hm : interpret_block _ _ _ _ _ _ = ROk _ _ |- _ => apply Hb in Hm
  | Hm : interpret_loop _ _ _ _ _ = ROk _ _ |- _ => apply Hl in Hm
  | Hm : interpret_expr_as_value _ _ _ _ _ = ROk _ _ |- _ => apply Hv in Hm
  | Hm : interpret_values _ _ _ _ _ = ROk _ _ |- _ => apply Hvs in Hm
  | Hm : interpret_expr _ _ _ _ _ = ROk _ _ |- _ => apply He in Hm
  | Hm : call_func _ _ _ _ _ = ROk _ _ |- scopes_kept _ _ (fun k => k = ?i) =>
      apply Hc in Hm; apply (kept_none_at i) in Hm
  | Hm : env_set _ _ _ _ = (_, _) |- _ => apply kept_set in Hm
  end;
  eauto 10 with kept.

Lemma kept_mutual H n :
  (forall st s i st' r, interpret_statement H n st s i = ROk st' r -> scopes_kept st st' (fun k => k = i)) /\
  (forall st ss i lr st' r, interpret_block H n st ss i lr = ROk st' r -> scopes_kept st st' (fun k => k = i)) /\
  (forall st b i st' r, interpret_loop H n st b i = ROk st' r -> scopes_kept st st' (fun k => k = i)) /\
  (forall st e i st' r, interpret_expr_as_value H n st e i = ROk st' r -> scopes_kept st st' (fun k => k = i)) /\
  (forall st es i st' r, interpret_values H n st es i = ROk st' r -> scopes_kept st st' (fun k => k = i)) /\
  (forall st e i st' r, interpret_expr H n st e i = ROk st' r -> scopes_kept st st' (fun k => k = i)) /\
  (forall st fn args st' r, call_func H n st fn args = ROk st' r -> scopes_kept st st' (fun _ => False)).
Proof.
  induction n as [|n IH].
  { repeat split; intros; simpl in *; discriminate. }
  destruct IH as (Hs & Hb & Hl & Hv & Hvs & He & Hc).
  split; [|split; [|split; [|split; [|split; [|split]]]]].
  - intros st [p d] i st' r; simpl. intros Hr. destruct d; kept_inv; kept_close Hs Hb Hl Hv Hvs He Hc.
  - intros st ss i lr st' r; simpl. intros Hr. kept_inv; kept_close Hs Hb Hl Hv Hvs He Hc.
  - intros st b i st' r; simpl. intros Hr. kept_inv; kept_close Hs Hb Hl Hv Hvs He Hc.
  - intros st e i st' r; simpl. intros Hr. kept_inv; kept_close Hs Hb Hl Hv Hvs He Hc.
  - intros st es i st' r; simpl. intros Hr. kept_inv; kept_close Hs Hb Hl Hv Hvs He Hc.
  - intros st [p d] i st' r; simpl. intros Hr. destruct d; kept_inv; kept_close Hs Hb Hl Hv Hvs He Hc.
  - intros st fn args st' r; simpl. intros Hr. kept_inv.
    all: try apply kept_refl.
    all: match goal with
         | Hb0 : interpret_statement _ _ (declare_params (?st ++ [?sc]) ?fe ?ns ?as_ ++ [?sc2]) _ _
                 = ROk ?st3 _ |- _ =>
             pose proof (@kept_child _ sc2 st3 (fun _ => False) (Hs _ _ _ _ _ Hb0)) as K1;
             pose proof (@kept_child st sc _ (fun _ => False) (kept_declare_params _ _ ns as_)) as K0
         end.
    all: eapply kept_weaken; [exact (kept_trans K0 K1)|]. all: intros k _ [[]|[]].
Qed.

Lemma vis_kept st st' x :
  DepthAux.parents_below st -> scopes_kept st st' (fun _ => False) ->
  forall e, e < length st -> forall n m, e < n -> e < m ->
  (is_Some (env_get_fuel n st e x) <-> is_Some (env_get_fuel m st' e x)).
Proof.
  intros Hpb [_ Hk] e. induction e as [e IHe] using lt_wf_ind.
  intros Hlt [|n] [|m] Hn Hm; try lia. simpl.
  destruct (lookup_lt_is_Some_2 st e Hlt) as [sc Hsc].
  destruct (Hk e sc Hsc) as (sc' & Hsc' & Hp & _ & Hd).
  specialize (Hd (fun f => f)). rewrite Hsc, Hsc'.
  destruct (vars sc !! x) as [w|] eqn:Hx; destruct (vars sc' !! x) as [w'|] eqn:Hx'.
  - split; eauto.
  - exfalso. assert (Hin : x ∈ dom (vars sc)) by (apply elem_of_dom; eauto).
    rewrite <- Hd in Hin. apply elem_of_dom in Hin. rewrite Hx' in Hin. destruct Hin; discriminate.
  - exfalso. assert (Hin : x ∈ dom (vars sc')) by (apply elem_of_dom; eauto).
    rewrite Hd in Hin. apply elem_of_dom in Hin. rewrite Hx in Hin. destruct Hin; discriminate.
  - rewrite Hp. destruct (parent sc) as [q|] eqn:Hq; [|split; intros [? ?]; discriminate].
    pose proof (Hpb e sc q Hsc Hq) as Hqe. apply IHe; lia.
Qed.

Lemma vis_kept_env_get st st' env x :
  DepthAux.parents_below st -> scopes_kept st st' (fun _ => False) -> env < length st ->
  is_Some (env_get st' env x) <-> is_Some (env_get st env x).
Proof.
  intros Hpb Hk Hlt. unfold env_get. pose proof Hk as [Hl _].
  symmetry. apply (@vis_kept st st' x Hpb Hk env Hlt); lia.
Qed.

(** A block and a loop run in a fresh scope, and a call in fresh scopes
    of its own: once one of them completes, the names visible from the
    current scope are exactly those visible before it, whatever it
    declared (assignments inside may have changed their values).  This
    holds for an arena in which every scope's parent sits below it, as
    [create_child] arranges for a parent that exists. *)
Theorem scoped_declarations_not_visible_after H fuel st env p st' :
  DepthAux.parents_below st -> env < length st ->
  (forall ss r, interpret_statement H fuel st (mkStmtNode p (Block ss)) env = ROk st' r ->
     forall x, is_Some (env_get st' env x) <-> is_Some (env_get st env x)) /\
  (forall b r, interpret_statement H fuel st (mkStmtNode p (Loop b)) env = ROk st' r ->
     forall x, is_Some (env_get st' env x) <-> is_Some (env_get st env x)) /\
  (forall fn args r, call_func H fuel st fn args = ROk st' r ->
     forall x, is_Some (env_get st' env x) <-> is_Some (env_get st env x)).
Proof.
  intros Hpb Hlt. split; [|split].
  - intros ss r Hr x. destruct fuel as [|fuel]; simpl in Hr; [discriminate|].
    destruct (kept_mutual H fuel) as (_ & Hb & _).
    apply vis_kept_env_get; [exact Hpb| |exact Hlt].
    exact (@kept_child st _ st' (fun _ => False) (Hb _ _ _ _ _ _ Hr)).
  - intros b r Hr x. destruct fuel as [|fuel]; simpl in Hr; [discriminate|].
    destruct (kept_mutual H fuel) as (_ & _ & Hl & _).
    apply vis_kept_env_get; [exact Hpb| |exact Hlt].
    exact (@kept_child st _ st' (fun _ => False) (Hl _ _ _ _ _ Hr)).
  - intros fn args r Hr x. destruct (kept_mutual H fuel) as (_ & _ & _ & _ & _ & _ & Hc).
    apply vis_kept_env_get; [exact Hpb| |exact Hlt]. exact (Hc _ _ _ _ _ Hr).
Qed.

Lemma scoped_declarations_not_visible_after_witness :
  DepthAux.parents_below [mkScope ∅ None] /\
  interpret_statement spec_value_impl 6 [mkScope ∅ None]
    (mkStmtNode (0,0) (Block [mkStmtNode (0,0) (VarDecl (Ast.Identifier Ast.Mutable "y") (int_lit (0,0) 1))])) 0
    = ROk [mkScope ∅ None; mkScope (<["y" := VNumber (NInteger 1)]> ∅) (Some 0)] SRNone /\
  (is_Some (env_get [mkScope ∅ None; mkScope (<["y" := VNumber (NInteger 1)]> ∅) (Some 0)] 0 "y")
     <-> is_Some (env_get [mkScope ∅ None] 0 "y")).
Proof.
  assert (Hpb : DepthAux.parents_below [mkScope ∅ None]).
  { intros [|i] sc q Hi Hq; simpl in Hi; [injection Hi as <-; discriminate|destruct i; discriminate]. }
  assert (Hr : interpret_statement spec_value_impl 6 [mkScope ∅ None]
    (mkStmtNode (0,0) (Block [mkStmtNode (0,0) (VarDecl (Ast.Identifier Ast.Mutable "y") (int_lit (0,0) 1))])) 0
    = ROk [mkScope ∅ None; mkScope (<["y" := VNumber (NInteger 1)]> ∅) (Some 0)] SRNone)
    by (vm_compute; reflexivity).
  split; [exact Hpb|]. split; [exact Hr|].
  destruct (@scoped_declarations_not_visible_after spec_value_impl 6 [mkScope ∅ None] 0 (0,0)
              [mkScope ∅ None; mkScope (<["y" := VNumber (NInteger 1)]> ∅) (Some 0)] Hpb
              ltac:(simpl; lia)) as (Hblk & _ & _).
  exact (Hblk _ _ Hr "y").
Defined.

End EvalExtras.
